(** * Spectrum Studio: the render pipeline of [StudioPhase]

    A shallow embedding of the parts of the [StudioPhase] component that
    export the visualisation as a video file, in its two versions:

    - the offline WebCodecs pipeline ([startOfflineRendering] and its
      [cancelRendering]), embedded in [Module Offline];
    - the MediaRecorder pipeline that streams chunks to disk
      ([startRendering], the [ondataavailable] and [onstop] handlers,
      [stopRenderingAndDownload], [cancelRendering]), embedded in
      [Module Recorder], with its promise-chained write queue in
      [Module WriteQueue];
    - the playlist helpers shared by both versions ([moveTrack],
      [playlistDuration], [totalDuration]).

    Conventions.  A JavaScript [number] that holds a time, a duration or a
    percentage is an exact rational ([Q]); counters and sizes are integers
    ([Z], or [nat] where the code only counts up from zero).  Rounding of
    IEEE doubles is not modelled.  An effectful function is a computation
    in a small writer-and-exception monad whose trace lists, in order, the
    calls it makes to the browser and to React; the answers of the browser
    on which the code branches are read from a [runtime] record, and the
    calls whose failure the code does not tell apart from any other
    (constructors, [configure], [encode], [flush]) are taken to succeed.
    An audio buffer is the list of its sample frames at the rate of the
    offline context (48 kHz), one channel standing for both; a source
    adds its samples to the node it is connected to.  Messages shown to
    the user are named by what they say, not spelled out. *)

From Stdlib Require Import ZArith QArith Qround List String Bool Lia Lqa.
From Stdlib Require Import Permutation Sorted Qminmax.
Import ListNotations.

Local Open Scope Z_scope.

(** ** Data model *)

(** Modelled from the spec: the [AudioTrack] type is imported from
    [../types], which is not part of the sources at hand; the fields are
    those the component reads ([id], [duration], [file]) plus the display
    name.  The audio payload is an opaque handle. *)
Record AudioTrack := mkTrack {
  id : string;
  name : string;
  duration : Q;
  file : nat
}.

(** Modelled from the spec: [EncodingSettings], also from [../types]. *)
Record EncodingSettings := mkEncoding {
  loopCount : Z;
  audioBitrate : Z
}.

Record RenderConfig := mkPreset {
  preset_id : string;
  label : string;
  fps : Z;
  bitrate : Z
}.

Definition RENDER_PRESETS : list RenderConfig :=
  [ mkPreset "high" "60fps" 60 8000000;
    mkPreset "balanced" "30fps" 30 5000000;
    mkPreset "fast" "30fps" 30 2500000 ].

(** ** JavaScript arrays

    An array is the list of its elements; [None] is [undefined] (a hole
    reads as [undefined] too).  Reading outside the array gives
    [undefined]; writing at an index beyond the end extends the array,
    the skipped positions being holes; writing at a negative index sets a
    property that is not an element and leaves the elements alone. *)
Section JsArray.
Context {A : Type}.

Definition jsarray := list (option A).

Definition js_get (a : jsarray) (i : Z) : option A :=
  if i <? 0 then None else nth (Z.to_nat i) a None.

Fixpoint replace_at (a : jsarray) (n : nat) (v : option A) : jsarray :=
  match a, n with
  | [], _ => repeat None n ++ [v]
  | _ :: rest, O => v :: rest
  | x :: rest, S n' => x :: replace_at rest n' v
  end.

Definition js_set (a : jsarray) (i : Z) (v : option A) : jsarray :=
  if i <? 0 then a else replace_at a (Z.to_nat i) v.

Definition js_length (a : jsarray) : Z := Z.of_nat (List.length a).
End JsArray.
Arguments jsarray : clear implicits.

Definition of_list {A} (l : list A) : jsarray A := map Some l.

(** ** Playlist management *)

Inductive direction := up | down.

Definition direction_eqb (d e : direction) : bool :=
  match d, e with
  | up, up | down, down => true
  | _, _ => false
  end.

(** [moveTrack]: the early [return] leaves the state as it is; otherwise a
    copy of the playlist is made, the right-hand side of the destructuring
    assignment is read first, and the two writes follow from left to
    right.  The result is the argument of [setPlaylist]. *)
Definition moveTrack {A} (playlist : jsarray A) (index : Z) (dir : direction)
  : jsarray A :=
  if (direction_eqb dir up && (index =? 0))
     || (direction_eqb dir down && (index =? js_length playlist - 1))
  then playlist
  else
    let newPlaylist := playlist in
    let targetIndex := if direction_eqb dir up then index - 1 else index + 1 in
    let rhs0 := js_get newPlaylist targetIndex in
    let rhs1 := js_get newPlaylist index in
    let newPlaylist := js_set newPlaylist index rhs0 in
    js_set newPlaylist targetIndex rhs1.

(** The exchange of the entries at positions [n] and [n+1] of a list. *)
Fixpoint swap_adjacent {A} (l : list A) (n : nat) : list A :=
  match n, l with
  | O, x :: y :: rest => y :: x :: rest
  | S n', x :: rest => x :: swap_adjacent rest n'
  | _, _ => l
  end.

(** Reference definition, after the description of the move rather than
    the code: the playlist is unchanged when the first track is moved up
    or the last one down, and has the track and its neighbour exchanged
    otherwise. *)
Definition moved {A} (playlist : list A) (index : Z) (dir : direction) : list A :=
  match dir with
  | up =>
      if index =? 0 then playlist
      else swap_adjacent playlist (Z.to_nat (index - 1))
  | down =>
      if index =? Z.of_nat (List.length playlist) - 1 then playlist
      else swap_adjacent playlist (Z.to_nat index)
  end.

(** [removeTrack]: the tracks whose [id] is not the given one, in their
    order. *)
Definition removeTrack (trackId : string) (playlist : list AudioTrack)
  : list AudioTrack :=
  filter (fun t => negb (String.eqb (id t) trackId)) playlist.

(** ** The name of the output file

    A string is the list of its UTF-16 code units.  The pattern
    [/[^a-z0-9]/gi] has no [u] flag: it is tried on every code unit, and
    only the ASCII letters and digits escape it. *)
Definition is_alphanumeric (c : nat) : bool :=
  ((48 <=? c) && (c <=? 57) || (65 <=? c) && (c <=? 90)
   || (97 <=? c) && (c <=? 122))%nat.

Definition underscore : nat := 95.

(** [renderFilename.replace(/[^a-z0-9]/gi, '_')] *)
Definition sanitize (renderFilename : list nat) : list nat :=
  map (fun c => if is_alphanumeric c then c else underscore) renderFilename.

(** [.mp4] *)
Definition mp4_suffix : list nat := [46; 109; 112; 52]%nat.

Definition suggestedName (renderFilename : list nat) : list nat :=
  sanitize renderFilename ++ mp4_suffix.

(** ** Playback through the playlist *)

Record player := mkPlayer {
  currentTrackIndex : Z;
  currentLoopIteration : Z;
  playing : bool
}.

(** [handleTrackEnd] of the recorder version, for a playlist of [length]
    tracks: the next track, or the first track of the next loop, or the
    end of playback.  The boolean tells whether
    [stopRenderingAndDownload] is called. *)
Definition handleTrackEnd (length loops : Z) (rendering : bool) (p : player)
  : player * bool :=
  if currentTrackIndex p <? length - 1
  then (mkPlayer (currentTrackIndex p + 1) (currentLoopIteration p) (playing p),
        false)
  else if currentLoopIteration p <? loops - 1
  then (mkPlayer 0 (currentLoopIteration p + 1) (playing p), false)
  else (mkPlayer (currentTrackIndex p) (currentLoopIteration p) false,
        rendering).

(** The player after [n] tracks have ended. *)
Fixpoint after_tracks (length loops : Z) (rendering : bool) (n : nat)
  (p : player) : player :=
  match n with
  | O => p
  | S n' =>
      fst (handleTrackEnd length loops rendering
             (after_tracks length loops rendering n' p))
  end.

(** ** The virtual timeline *)

Definition playlistDuration (playlist : list AudioTrack) : Q :=
  fold_left (fun acc t => (acc + duration t)%Q) playlist 0%Q.

Definition totalDuration (playlist : list AudioTrack) (enc : EncodingSettings) : Q :=
  (playlistDuration playlist * inject_Z (loopCount enc))%Q.


Definition sampleRate : Z := 48000.

Definition totalDurationSamples (playlist : list AudioTrack) (enc : EncodingSettings) : Z :=
  Qceiling (totalDuration playlist enc * inject_Z sampleRate).

(** The duration, in seconds, of a buffer of [n] sample-frames. *)
Definition duration_of_frames (n : Z) : Q := (inject_Z n / inject_Z sampleRate)%Q.

Definition frameDuration (fps : Z) : Q := (1 / inject_Z fps)%Q.

Definition totalFrames (total : Q) (fps : Z) : Z :=
  Qceiling (total * inject_Z fps).

(** [i % (fps * 2) === 0]: the remainder takes the sign of the dividend,
    and a zero divisor gives [NaN], which is not [0]. *)
Definition keyFrame (i : Z) (fps : Z) : bool :=
  if fps * 2 =? 0 then false else Z.rem i (fps * 2) =? 0.



(** ** Observable actions

    The calls a run makes to the browser, to the encoders and muxer, and to
    the React state setters, in the order they happen.  Both versions of
    the component share the type. *)

Inductive node := Destination | MasterGain | Analyser.

(** The status phrases shown under the progress bar, by the phase they
    announce. *)
Inductive status :=
| StatusPreparing
| StatusRendering
| StatusAudioEncoding
| StatusPackaging
| StatusDiskMode
| StatusFinishingSave.

Inductive alert_message :=
| UnsupportedBrowser
| RenderComplete (codec : string)
| RenderError (msg : string)
| EncodeError (msg : string)
| RecorderInitFailed
| SaveLocationError
| SaveComplete
| SaveCloseFailed.

Inductive event :=
| Alert (m : alert_message)
| Confirm
| Reload
| ConsoleWarn
| ConsoleError (msg : string)
| ShowSaveFilePicker
| CreateWritable
| SetShowRenderModal (b : bool)
| SetIsRendering (b : bool)
| SetIsPlaying (b : bool)
| SetRenderProgress (p : Q)
| SetRenderStatusText (s : status)
| SetUsedCodec (s : string)
| NewAudioContext
| DecodeAudioData (track : string)
| CloseAudioContext
| NewOfflineAudioContext (channels length rate : Z)
| SourceStart (dst : node) (buffer : list Z) (startTime : Q)
| CreateAnalyser
| CreateGain
| Connect (src dst : node)
| IsConfigSupported (codec : string)
| NewMuxer (codec : string)
| VideoConfigure (codec : string)
| AudioConfigure (bitrate : Z)
| Suspend (time : Q)
| StartRendering
| GetByteFrequencyData
| DrawOfflineFrame (ms : Q)
| CreateImageBitmap
| VideoEncode (timestamp duration : Q) (key : bool)
| Resume
| AudioEncode (timestamp : Q) (numberOfFrames : Z)
| VideoFlush
| AudioFlush
| MuxerFinalize
| NewMediaRecorder (mimeType : string)
| RecorderStart (timeslice : Z)
| RecorderStop
| AudioPlay
| AudioPause
| SetGain (v : Q)
| AwaitWriteQueue
| SinkWrite (blob : nat)
| SinkClose
| SinkAbort.

(** ** A writer-and-exception monad

    A computation yields the trace of its actions and either a value or a
    thrown error (its [message]). *)
Inductive outcome (A : Type) :=
| Normal (a : A)
| Throw (msg : string).
Arguments Normal {A} a.
Arguments Throw {A} msg.

Definition M (A : Type) : Type := (list event * outcome A)%type.

Definition ret {A} (a : A) : M A := ([], Normal a).

Definition bind {A B} (m : M A) (f : A -> M B) : M B :=
  match m with
  | (t, Normal a) => let (t', r) := f a in (t ++ t', r)
  | (t, Throw msg) => (t, Throw msg)
  end.

Definition emit (e : event) : M unit := ([e], Normal tt).

Definition throw {A} (msg : string) : M A := ([], Throw msg).

Definition try_catch {A} (body : M A) (handler : string -> M A) : M A :=
  match body with
  | (t, Normal a) => (t, Normal a)
  | (t, Throw msg) => let (t', r) := handler msg in (t ++ t', r)
  end.

Definition try_finally {A} (body : M A) (cleanup : M unit) : M A :=
  match body, cleanup with
  | (t, r), (t', Normal _) => (t ++ t', r)
  | (t, _), (t', Throw msg) => (t ++ t', Throw msg)
  end.

Definition trace {A} (m : M A) : list event := fst m.

Declare Scope monad_scope.
Delimit Scope monad_scope with monad.
Notation "x <- c ;; k" := (bind c (fun x => k))
  (at level 61, c at next level, right associativity) : monad_scope.
Notation "c ;; k" := (bind c (fun _ => k))
  (at level 61, right associativity) : monad_scope.

(** Emits the actions of a stretch of code that cannot throw. *)
Definition emit_all (l : list event) : M unit := (l, Normal tt).

(** ** The browser as seen by the component *)

Inductive probe := Supported | Unsupported | ProbeThrows (msg : string).

Record runtime := mkRuntime {
  (** ['showSaveFilePicker' in window] *)
  hasShowSaveFilePicker : bool;
  (** whether the promise of [showSaveFilePicker] fulfils *)
  pickerGrants : bool;
  (** [decodeAudioData] on the payload of a track: the samples of the
      decoded buffer, or the message of the error it rejects with *)
  decodeAudioData : AudioTrack -> string + list Z;
  (** [VideoEncoder.isConfigSupported] on a codec string *)
  isConfigSupported : string -> probe;
  (** whether [canvasRef.current] and its canvas are there when the
      callback of frame [i] runs *)
  canvasReady : nat -> bool;
  (** the answer to [confirm] *)
  confirms : bool
}.

(** ** The offline pipeline (WebCodecs, muxer) *)

Module Offline.
Local Open Scope monad_scope.

(** *** 1. Decoding: [for (const track of playlist)] *)
Fixpoint decode_tracks (rt : runtime) (playlist : list AudioTrack)
  : M (list (list Z)) :=
  match playlist with
  | [] => ret []
  | track :: rest =>
      emit (DecodeAudioData (id track)) ;;
      match decodeAudioData rt track with
      | inl msg => throw msg
      | inr audioBuffer =>
          trackBuffers <- decode_tracks rt rest ;;
          ret (audioBuffer :: trackBuffers)
      end
  end.

(** *** 2. The audio graph *)

(** [buffer.duration] *)
Definition buffer_duration (buffer : list Z) : Q :=
  duration_of_frames (Z.of_nat (List.length buffer)).

(** The inner loop over [trackBuffers]: one source node per buffer,
    connected to [dst] and started at [startTime], which then advances by
    the duration of the buffer.  Returns the final [startTime]. *)
Fixpoint schedule_buffers (dst : node) (trackBuffers : list (list Z))
  (startTime : Q) : list event * Q :=
  match trackBuffers with
  | [] => ([], startTime)
  | buffer :: rest =>
      let (evs, t) :=
        schedule_buffers dst rest (startTime + buffer_duration buffer)%Q in
      (SourceStart dst buffer startTime :: evs, t)
  end.

(** The outer loop: [for (let loop = 0; loop < loopCount; loop++)]. *)
Fixpoint schedule_loops (dst : node) (trackBuffers : list (list Z))
  (loops : nat) (startTime : Q) : list event * Q :=
  match loops with
  | O => ([], startTime)
  | S n =>
      let (evs, t) := schedule_buffers dst trackBuffers startTime in
      let (evs', t') := schedule_loops dst trackBuffers n t in
      (evs ++ evs', t')
  end.

(** The whole of step 2: the sources wired straight to the destination,
    then the analyser and the master gain, then the sources wired to the
    master gain ([startTime] is reset to [0] in between). *)
Definition build_audio_graph (trackBuffers : list (list Z)) (loops : nat)
  : list event :=
  fst (schedule_loops Destination trackBuffers loops 0%Q)
  ++ [CreateAnalyser; CreateGain;
      Connect MasterGain Destination; Connect MasterGain Analyser]
  ++ fst (schedule_loops MasterGain trackBuffers loops 0%Q).

(** What [startRendering] puts in the rendered buffer.  A source started
    at [startTime] contributes its samples from frame
    [startTime * sampleRate] on; the destination sums its inputs, and the
    master gain (gain 1) passes its own sum on to the destination. *)
Definition feeds_destination (graph : list event) (n : node) : bool :=
  match n with
  | Destination => true
  | MasterGain =>
      existsb (fun e => match e with
                        | Connect MasterGain Destination => true
                        | _ => false
                        end) graph
  | Analyser => false
  end.

Definition start_frame (startTime : Q) : nat :=
  Z.to_nat (Qfloor (startTime * inject_Z sampleRate)).

(** A start time that falls on frame [k]. *)
Definition on_frame (startTime : Q) (k : nat) : Prop :=
  (startTime == inject_Z (Z.of_nat k) / inject_Z sampleRate)%Q.

Definition sample_at (buffer : list Z) (start k : nat) : Z :=
  if (k <? start)%nat then 0 else nth (k - start) buffer 0.

Fixpoint mix_at (graph sources : list event) (k : nat) : Z :=
  match sources with
  | [] => 0
  | SourceStart dst buffer startTime :: rest =>
      (if feeds_destination graph dst
       then sample_at buffer (start_frame startTime) k else 0)
      + mix_at graph rest k
  | _ :: rest => mix_at graph rest k
  end.

Definition renderedBuffer (graph : list event) (length : Z) : list Z :=
  map (mix_at graph graph) (seq 0 (Z.to_nat length)).

(** *** 3. Codec negotiation *)

Definition hevc_main : string := "hvc1.1.6.L120.B0".
Definition avc_high : string := "avc1.640028".
Definition avc_baseline : string := "avc1.420028".

(** Returns [chosenCodec] and [videoConfig.codec]. *)
Definition negotiate (rt : runtime) : M (string * string) :=
  try_catch
    (emit (IsConfigSupported hevc_main) ;;
     match isConfigSupported rt hevc_main with
     | Supported => ret ("hvc1"%string, hevc_main)
     | Unsupported => throw "HEVC unsupported"
     | ProbeThrows msg => throw msg
     end)
    (fun _ =>
       emit ConsoleWarn ;;
       emit (IsConfigSupported avc_high) ;;
       match isConfigSupported rt avc_high with
       | Supported => ret ("avc1"%string, avc_high)
       | Unsupported => emit ConsoleWarn ;; ret ("avc1"%string, avc_baseline)
       | ProbeThrows msg => throw msg
       end).

Definition codec_label (chosenCodec : string) : string :=
  if String.eqb chosenCodec "hvc1" then "HEVC (H.265)" else "AVC (H.264)".

(** *** 6. The render loop *)

(** [time = i * frameDuration] *)
Definition frame_time (fps : Z) (i : nat) : Q :=
  (inject_Z (Z.of_nat i) * frameDuration fps)%Q.

(** The [for] loop itself only registers one suspension per frame. *)
Definition schedule_suspends (fps : Z) (frames : nat) : list event :=
  map (fun i => Suspend (frame_time fps i)) (seq 0 frames).

(** The callback that runs when the context is suspended at frame [i]. *)
Definition frame_callback (rt : runtime) (fps frames : Z) (i : nat)
  : list event :=
  let time := frame_time fps i in
  [GetByteFrequencyData]
  ++ (if canvasReady rt i
      then [DrawOfflineFrame (time * 1000)%Q;
            CreateImageBitmap;
            VideoEncode (time * 1000000)%Q (frameDuration fps * 1000000)%Q
                        (keyFrame (Z.of_nat i) fps)]
      else [])
  ++ [SetRenderProgress (inject_Z (Z.of_nat i) / inject_Z frames * 90)%Q;
      Resume].

(** [await offlineCtx.startRendering()]: the context stops at each
    suspension in the order of their times and runs its callback, which
    resumes it. *)
Definition run_callbacks (rt : runtime) (fps frames : Z) : list event :=
  flat_map (frame_callback rt fps frames) (seq 0 (Z.to_nat frames)).

(** The audio pass: one-second chunks of the rendered buffer. *)
Definition chunkSamples : Z := sampleRate * 1.

Fixpoint encode_audio (fuel : nat) (offset totalSamples : Z) : list event :=
  match fuel with
  | O => []
  | S fuel' =>
      if offset <? totalSamples then
        let size := Z.min chunkSamples (totalSamples - offset) in
        AudioEncode (inject_Z offset / inject_Z sampleRate * 1000000)%Q size
        :: encode_audio fuel' (offset + chunkSamples) totalSamples
      else []
  end.

(** *** The body of the [try] block *)
Definition render_body (rt : runtime) (playlist : list AudioTrack)
  (encodingSettings : EncodingSettings) (selectedPreset : RenderConfig)
  (usedCodec : string) : M unit :=
  emit NewAudioContext ;;
  trackBuffers <- decode_tracks rt playlist ;;
  emit CloseAudioContext ;;
  let length := totalDurationSamples playlist encodingSettings in
  emit (NewOfflineAudioContext 2 length sampleRate) ;;
  let graph :=
    build_audio_graph trackBuffers (Z.to_nat (loopCount encodingSettings)) in
  emit_all graph ;;
  let fps := fps selectedPreset in
  codec <- negotiate rt ;;
  let (chosenCodec, configCodec) := codec in
  emit (SetUsedCodec (codec_label chosenCodec)) ;;
  emit CreateWritable ;;
  emit (NewMuxer chosenCodec) ;;
  emit (VideoConfigure configCodec) ;;
  emit (AudioConfigure (audioBitrate encodingSettings)) ;;
  emit (SetRenderStatusText StatusRendering) ;;
  let frames := totalFrames (totalDuration playlist encodingSettings) fps in
  emit_all (schedule_suspends fps (Z.to_nat frames)) ;;
  emit StartRendering ;;
  emit_all (run_callbacks rt fps frames) ;;
  emit (SetRenderStatusText StatusAudioEncoding) ;;
  let totalSamples := Z.of_nat (List.length (renderedBuffer graph length)) in
  emit_all (encode_audio (Z.to_nat totalSamples) 0 totalSamples) ;;
  emit (SetRenderStatusText StatusPackaging) ;;
  emit VideoFlush ;;
  emit AudioFlush ;;
  emit MuxerFinalize ;;
  emit (SetRenderProgress 100) ;;
  emit (Alert (RenderComplete
                 (if String.eqb usedCodec "" then chosenCodec else usedCodec))).

Definition startOfflineRendering (rt : runtime) (playlist : list AudioTrack)
  (encodingSettings : EncodingSettings) (selectedPreset : RenderConfig)
  (usedCodec : string) : M unit :=
  if negb (hasShowSaveFilePicker rt) then emit (Alert UnsupportedBrowser)
  else
    emit ShowSaveFilePicker ;;
    if negb (pickerGrants rt) then ret tt
    else
      emit_all [SetShowRenderModal false; SetIsRendering true;
                SetRenderProgress 0; SetRenderStatusText StatusPreparing] ;;
      try_finally
        (try_catch
           (render_body rt playlist encodingSettings selectedPreset usedCodec)
           (fun msg => emit (ConsoleError msg) ;; emit (Alert (RenderError msg))))
        (emit (SetIsRendering false)).

(** [cancelRendering] of this version: a confirmation, then a reload of
    the page. *)
Definition cancelRendering (rt : runtime) : M unit :=
  emit Confirm ;;
  if confirms rt then emit Reload else ret tt.

(** The frames handed to the video encoder, in order:
    timestamp, duration and key-frame flag. *)
Fixpoint video_frames (tr : list event) : list (Q * Q * bool) :=
  match tr with
  | [] => []
  | VideoEncode ts d k :: rest => (ts, d, k) :: video_frames rest
  | _ :: rest => video_frames rest
  end.

Fixpoint audio_chunks (tr : list event) : list (Q * Z) :=
  match tr with
  | [] => []
  | AudioEncode ts n :: rest => (ts, n) :: audio_chunks rest
  | _ :: rest => audio_chunks rest
  end.

(** *** The phases of a run that goes through

    Used to state what a run does; the functions above are the model. *)

(** Every track of the playlist decodes. *)
Definition decodes (rt : runtime) (playlist : list AudioTrack) : Prop :=
  forall t, In t playlist -> exists buffer, decodeAudioData rt t = inr buffer.

(** The probes that are made do not throw out of the negotiation. *)
Definition negotiates (rt : runtime) : Prop :=
  isConfigSupported rt hevc_main = Supported
  \/ forall msg, isConfigSupported rt avc_high <> ProbeThrows msg.

Definition render_starts (rt : runtime) (playlist : list AudioTrack) : Prop :=
  hasShowSaveFilePicker rt = true /\ pickerGrants rt = true
  /\ decodes rt playlist /\ negotiates rt.

Definition decoded (rt : runtime) (playlist : list AudioTrack) : list (list Z) :=
  map (fun t => match decodeAudioData rt t with
                | inr buffer => buffer
                | inl _ => []
                end) playlist.

(** A trace made of probes and warnings only. *)
Definition negotiation_events (neg : list event) : Prop :=
  forall e, In e neg ->
    e = ConsoleWarn \/ exists codec, e = IsConfigSupported codec.

Definition opening_events : list event :=
  [ShowSaveFilePicker; SetShowRenderModal false; SetIsRendering true;
   SetRenderProgress 0; SetRenderStatusText StatusPreparing; NewAudioContext].

Definition setup_events (rt : runtime) (playlist : list AudioTrack)
  (enc : EncodingSettings) : list event :=
  opening_events
  ++ map (fun t => DecodeAudioData (id t)) playlist
  ++ [CloseAudioContext;
      NewOfflineAudioContext 2 (totalDurationSamples playlist enc) sampleRate]
  ++ build_audio_graph (decoded rt playlist) (Z.to_nat (loopCount enc)).

Definition encoder_events (codec : string * string) (enc : EncodingSettings)
  : list event :=
  [SetUsedCodec (codec_label (fst codec)); CreateWritable;
   NewMuxer (fst codec); VideoConfigure (snd codec);
   AudioConfigure (audioBitrate enc); SetRenderStatusText StatusRendering].

Definition loop_events (rt : runtime) (playlist : list AudioTrack)
  (enc : EncodingSettings) (preset : RenderConfig) : list event :=
  let frames := totalFrames (totalDuration playlist enc) (fps preset) in
  schedule_suspends (fps preset) (Z.to_nat frames)
  ++ [StartRendering]
  ++ run_callbacks rt (fps preset) frames.

Definition audio_events (rt : runtime) (playlist : list AudioTrack)
  (enc : EncodingSettings) : list event :=
  let graph := build_audio_graph (decoded rt playlist) (Z.to_nat (loopCount enc)) in
  let totalSamples :=
    Z.of_nat (List.length (renderedBuffer graph (totalDurationSamples playlist enc))) in
  SetRenderStatusText StatusAudioEncoding
  :: encode_audio (Z.to_nat totalSamples) 0 totalSamples.

Definition finale_events (codec : string * string) (usedCodec : string)
  : list event :=
  [SetRenderStatusText StatusPackaging; VideoFlush; AudioFlush; MuxerFinalize;
   SetRenderProgress 100;
   Alert (RenderComplete
            (if String.eqb usedCodec "" then fst codec else usedCodec));
   SetIsRendering false].



(** The tracks handed to the decoder, in order. *)
Fixpoint decoded_tracks (tr : list event) : list string :=
  match tr with
  | [] => []
  | DecodeAudioData track :: rest => track :: decoded_tracks rest
  | _ :: rest => decoded_tracks rest
  end.

(** The number of sample frames the audio encoder is handed. *)
Definition frames_encoded (chunks : list (Q * Z)) : Z :=
  fold_right (fun c acc => snd c + acc) 0 chunks.

End Offline.

(** ** The recorder pipeline (MediaRecorder, streamed to disk) *)

Module Recorder.

Inductive recorder_state := inactive | recording.

(** A writable file stream is open, closed (the file is committed) or
    errored (after [abort]; nothing is committed). *)
Inductive sink_state := SinkIsOpen | SinkIsClosed | SinkIsErrored.

(** The file picker and [createWritable]: a writable stream, the
    [AbortError] of a dismissed picker, or another error. *)
Inductive picker_result := PickerGranted | PickerDismissed | PickerFailed.

(** What this version asks of the browser. *)
Record recorder_runtime := mkRecorderRuntime {
  (** [canvasRef], [destNodeRef] and [audioRef] are all set *)
  refsReady : bool;
  hasPicker : bool;
  (** how the picker and [createWritable] end *)
  pickerOutcome : picker_result;
  isTypeSupported : string -> bool;
  (** [new MediaRecorder] does not throw *)
  recorderInitSucceeds : bool
}.

(** The refs and the React state of the component. *)
Record studio := mkStudio {
  (** [mediaRecorderRef.current], by its [state] *)
  mediaRecorder : option recorder_state;
  (** whether the [onstop] handler is attached *)
  onstop : bool;
  (** [stop()] was called and its [stop] event is still to be fired *)
  stopPending : bool;
  (** [writableStreamRef.current] *)
  writableStream : option sink_state;
  (** the callbacks chained on [writeQueueRef.current] that have not run
      yet, oldest first *)
  pendingWrites : list nat;
  (** the blobs the sink has taken *)
  fileData : list nat;
  (** [gainNodeRef.current], by the value of its gain *)
  gain : option Q;
  isRendering : bool;
  isPlaying : bool;
  renderProgress : Q;
  log : list event
}.

Definition action := studio -> studio.

Definition and_then (a b : action) : action := fun s => b (a s).
Infix ">>" := and_then (at level 61, right associativity).

Definition skip : action := fun s => s.

Definition say (e : event) : action := fun s =>
  mkStudio (mediaRecorder s) (onstop s) (stopPending s) (writableStream s)
    (pendingWrites s) (fileData s) (gain s) (isRendering s) (isPlaying s)
    (renderProgress s) (log s ++ [e]).

Definition set_recorder (r : option recorder_state) (h p : bool) : action :=
  fun s =>
  mkStudio r h p (writableStream s) (pendingWrites s) (fileData s) (gain s)
    (isRendering s) (isPlaying s) (renderProgress s) (log s).

Definition set_sink (w : option sink_state) (q f : list nat) : action :=
  fun s =>
  mkStudio (mediaRecorder s) (onstop s) (stopPending s) w q f (gain s)
    (isRendering s) (isPlaying s) (renderProgress s) (log s).

Definition setIsRendering (b : bool) : action := fun s =>
  mkStudio (mediaRecorder s) (onstop s) (stopPending s) (writableStream s)
    (pendingWrites s) (fileData s) (gain s) b (isPlaying s)
    (renderProgress s) (log s ++ [SetIsRendering b]).

Definition setIsPlaying (b : bool) : action := fun s =>
  mkStudio (mediaRecorder s) (onstop s) (stopPending s) (writableStream s)
    (pendingWrites s) (fileData s) (gain s) (isRendering s) b
    (renderProgress s) (log s ++ [SetIsPlaying b]).

Definition setRenderProgress (p : Q) : action := fun s =>
  mkStudio (mediaRecorder s) (onstop s) (stopPending s) (writableStream s)
    (pendingWrites s) (fileData s) (gain s) (isRendering s) (isPlaying s)
    p (log s ++ [SetRenderProgress p]).

(** [if (gainNodeRef.current) gain.setValueAtTime(v, now)] *)
Definition setGain (v : Q) : action := fun s =>
  match gain s with
  | None => s
  | Some _ =>
      mkStudio (mediaRecorder s) (onstop s) (stopPending s) (writableStream s)
        (pendingWrites s) (fileData s) (Some v) (isRendering s) (isPlaying s)
        (renderProgress s) (log s ++ [SetGain v])
  end.

(** The candidates of the codec selection, in the order they are tried. *)
Definition supportedTypes : list string :=
  [ "video/mp4; codecs=avc1.4d002a, mp4a.40.2";
    "video/mp4; codecs=avc1.42002a, mp4a.40.2";
    "video/mp4; codecs=avc1.640034, mp4a.40.2";
    "video/mp4; codecs=avc1.640028, mp4a.40.2";
    "video/mp4";
    "video/webm; codecs=h264" ]%string.

(** The [for] loop with its [break], then the fallback of an empty
    [mimeType]. *)
Definition select_mimeType (rt : recorder_runtime) : string :=
  match find (isTypeSupported rt) supportedTypes with
  | Some type => type
  | None => "video/webm; codecs=vp9"%string
  end.

Definition startRendering (rt : recorder_runtime) : action := fun s =>
  if negb (refsReady rt) then s
  else if negb (hasPicker rt) then say (Alert UnsupportedBrowser) s
  else
    match pickerOutcome rt with
    | PickerDismissed => say ShowSaveFilePicker s
    | PickerFailed =>
        (say ShowSaveFilePicker
         >> say (ConsoleError "File System Access Error")
         >> say (Alert SaveLocationError)) s
    | PickerGranted =>
        (say ShowSaveFilePicker >> say CreateWritable
         >> say (SetShowRenderModal false)
         >> setIsRendering true
         >> setRenderProgress 0
         >> say (SetRenderStatusText StatusDiskMode)
         >> set_sink (Some SinkIsOpen) [] []
         >> setGain 0
         >> (if recorderInitSucceeds rt
             then say (NewMediaRecorder (select_mimeType rt))
                  >> set_recorder (Some recording) true false
                  >> say (RecorderStart 1000)
                  >> setIsPlaying true
                  >> say AudioPlay
             else say ConsoleWarn
                  >> say (Alert RecorderInitFailed)
                  >> setIsRendering false)) s
    end.

(** The [ondataavailable] handler, for a chunk of the given size. *)
Definition ondataavailable (blob : nat) (size : Z) : action := fun s =>
  match writableStream s with
  | Some _ =>
      if 0 <? size
      then set_sink (writableStream s) (pendingWrites s ++ [blob]) (fileData s) s
      else s
  | None => s
  end.

(** One callback of the write queue runs: the write is awaited, and a
    sink that is not open rejects it, which is logged and swallowed. *)
Definition run_write : action := fun s =>
  match pendingWrites s with
  | [] => s
  | blob :: rest =>
      match writableStream s with
      | Some SinkIsOpen =>
          (set_sink (Some SinkIsOpen) rest (fileData s ++ [blob])
           >> say (SinkWrite blob)) s
      | Some w =>
          (set_sink (Some w) rest (fileData s)
           >> say (ConsoleError "Stream write error")) s
      | None => set_sink None rest (fileData s) s
      end
  end.

Fixpoint drain (fuel : nat) : action :=
  match fuel with
  | O => skip
  | S n => run_write >> drain n
  end.

(** [await writeQueueRef.current]: every callback chained so far runs. *)
Definition await_write_queue : action := fun s =>
  (drain (List.length (pendingWrites s)) >> say AwaitWriteQueue) s.

(** [close()] commits the file of an open sink and rejects otherwise. *)
Definition close_sink : action := fun s =>
  match writableStream s with
  | Some SinkIsOpen =>
      (set_sink (Some SinkIsClosed) (pendingWrites s) (fileData s)
       >> say SinkClose >> say (Alert SaveComplete)) s
  | _ => (say (ConsoleError "Stream close error")
          >> say (Alert SaveCloseFailed)) s
  end.

(** The [onstop] handler. *)
Definition onstop_handler : action :=
  say (SetRenderStatusText StatusFinishingSave)
  >> setRenderProgress 100
  >> (fun s => match writableStream s with
               | Some _ => (await_write_queue >> close_sink) s
               | None => s
               end)
  >> setIsRendering false
  >> setIsPlaying false
  >> setRenderProgress 0
  >> setGain 1.

(** The recorder fires the [stop] event it owes. *)
Definition fire_stop : action := fun s =>
  if stopPending s
  then (set_recorder (mediaRecorder s) (onstop s) false
        >> (if onstop s then onstop_handler else skip)) s
  else s.

Definition stopRenderingAndDownload : action := fun s =>
  match mediaRecorder s with
  | Some recording =>
      (set_recorder (Some inactive) (onstop s) true
       >> say RecorderStop >> say AudioPause) s
  | _ => s
  end.

(** [abort()] errors an open sink; on a closed or errored one it changes
    nothing. *)
Definition abort_sink : action := fun s =>
  match writableStream s with
  | Some w =>
      (set_sink (Some (match w with SinkIsOpen => SinkIsErrored | _ => w end))
                (pendingWrites s) (fileData s)
       >> say SinkAbort) s
  | None => s
  end.

Definition cancelRendering : action :=
  (fun s => match mediaRecorder s with
            | Some recording =>
                (set_recorder (Some inactive) false true >> say RecorderStop) s
            | _ => s
            end)
  >> abort_sink
  >> setIsRendering false
  >> setIsPlaying false
  >> say AudioPause
  >> setGain 1.






(** What can happen once a render has been started. *)
Inductive step : studio -> studio -> Prop :=
| step_data (s : studio) (blob : nat) (size : Z) :
    step s (ondataavailable blob size s)
| step_write (s : studio) : step s (run_write s)
| step_fire_stop (s : studio) : step s (fire_stop s)
| step_track_end (s : studio) : step s (stopRenderingAndDownload s)
| step_cancel (s : studio) : step s (cancelRendering s).


(** The component before any render: the audio graph is set up (the gain
    node exists, unmuted), nothing else is. *)
Definition idle : studio :=
  mkStudio None false false None [] [] (Some 1%Q) false false 0%Q [].

(** The states of a render under way: recording into an open sink, the
    stop handler attached, the speakers muted. *)
Definition rendering (s : studio) : Prop :=
  mediaRecorder s = Some recording /\ onstop s = true /\
  stopPending s = false /\
  writableStream s = Some SinkIsOpen /\ gain s = Some 0%Q /\
  isRendering s = true.




(** A browser in which this version can render. *)
Definition sample_recorder : recorder_runtime :=
  mkRecorderRuntime true true PickerGranted (fun _ => true) true.

(** A render under way: one chunk written, a second one queued. *)
Definition recording_session : studio :=
  ondataavailable 2 10
    (run_write (ondataavailable 1 10 (startRendering sample_recorder idle))).

(** The same render, ended by the end of the playlist. *)
Definition finished_session : studio :=
  fire_stop (stopRenderingAndDownload recording_session).

(** The same render, cancelled; the recorder then flushes a last chunk
    and fires its stop event. *)
Definition cancelled_session : studio :=
  fire_stop (run_write (run_write
    (ondataavailable 3 10 (cancelRendering recording_session)))).

End Recorder.

(** ** The sequential write queue

    [writeQueueRef.current = writeQueueRef.current.then(callback).catch(..)]
    at the level of promises.  Chaining creates a promise of its own for
    the callback and records the promise it was chained on; the callback
    may start once that promise is settled; it awaits the write inside a
    [try], so its own promise settles when the write does, whether the
    write succeeds or not. *)

Module WriteQueue.

Inductive promise_state := pending | settled.

Inductive task_status := waiting | writing | done.

Record write_task := mkTask {
  blob : nat;
  (** the promise the callback was chained on *)
  chained_on : nat;
  (** the promise that chaining returned *)
  own : nat;
  status : task_status
}.

Inductive io :=
| Enqueued (t : nat)
| WriteBegins (t : nat)
| WriteSettles (t : nat).

Record queue := mkQueue {
  (** the promises created so far, by number *)
  promise : nat -> option promise_state;
  nextPromise : nat;
  (** [writeQueueRef.current] *)
  writeQueueRef : nat;
  (** the chained callbacks, numbered in the order of chaining *)
  task : nat -> option write_task;
  nextTask : nat;
  history : list io
}.

Definition upd {A} (f : nat -> option A) (k : nat) (v : A) : nat -> option A :=
  fun n => if Nat.eqb n k then Some v else f n.

(** [useRef(Promise.resolve())], and the reset in [startRendering]. *)
Definition init : queue :=
  mkQueue (upd (fun _ => None) 0%nat settled) 1%nat 0%nat (fun _ => None) 0%nat [].

(** A chunk arrives: its callback is chained on the current promise, and
    the promise of the chain takes its place in the ref. *)
Definition enqueue (b : nat) (q : queue) : queue :=
  let p := nextPromise q in
  let t := nextTask q in
  mkQueue (upd (promise q) p pending) (S p) p
          (upd (task q) t (mkTask b (writeQueueRef q) p waiting)) (S t)
          (history q ++ [Enqueued t]).

(** The callback of task [t] starts: possible only when the promise it was
    chained on is settled. *)
Definition begin (t : nat) (q : queue) : option queue :=
  match task q t with
  | Some (mkTask b c o waiting) =>
      match promise q c with
      | Some settled =>
          Some (mkQueue (promise q) (nextPromise q) (writeQueueRef q)
                        (upd (task q) t (mkTask b c o writing)) (nextTask q)
                        (history q ++ [WriteBegins t]))
      | _ => None
      end
  | _ => None
  end.

(** The write of task [t] settles, and with it the promise of the task. *)
Definition settle (t : nat) (q : queue) : option queue :=
  match task q t with
  | Some (mkTask b c o writing) =>
      Some (mkQueue (upd (promise q) o settled) (nextPromise q)
                    (writeQueueRef q)
                    (upd (task q) t (mkTask b c o done)) (nextTask q)
                    (history q ++ [WriteSettles t]))
  | _ => None
  end.

Inductive step : queue -> queue -> Prop :=
| step_enqueue (q : queue) (b : nat) : step q (enqueue b q)
| step_begin (q q' : queue) (t : nat) : begin t q = Some q' -> step q q'
| step_settle (q q' : queue) (t : nat) : settle t q = Some q' -> step q q'.

Inductive reachable : queue -> Prop :=
| reach_init : reachable init
| reach_step (q q' : queue) : reachable q -> step q q' -> reachable q'.

(** In a history, every write that begins is preceded by the settling of
    all the writes enqueued before it. *)
Definition serialized (h : list io) : Prop :=
  forall (h1 h2 : list io) (a b : nat),
    h = h1 ++ WriteBegins b :: h2 -> (a < b)%nat -> In (WriteSettles a) h1.

Definition status_of (q : queue) (t : nat) : option task_status :=
  option_map status (task q t).

(** The tasks of a history, in the order they were enqueued. *)
Fixpoint enqueued (h : list io) : list nat :=
  match h with
  | [] => []
  | Enqueued t :: rest => t :: enqueued rest
  | _ :: rest => enqueued rest
  end.

(** What the chain of promises looks like at any time. *)
Record chained (q : queue) : Prop := mkChained {
  chain_next : nextPromise q = S (nextTask q);
  chain_ref : writeQueueRef q = nextTask q;
  chain_task : forall t, (t < nextTask q)%nat ->
    exists b st, task q t = Some (mkTask b t (S t) st);
  chain_none : forall t, (nextTask q <= t)%nat -> task q t = None;
  chain_first : promise q 0%nat = Some settled;
  chain_promise : forall t, (t < nextTask q)%nat ->
    (promise q (S t) = Some settled <-> status_of q t = Some done);
  chain_order : forall a t, (a < t)%nat ->
    (exists st, status_of q t = Some st /\ st <> waiting) ->
    status_of q a = Some done;
  chain_settled : forall t, status_of q t = Some done ->
    In (WriteSettles t) (history q);
  chain_enqueued : enqueued (history q) = seq 0 (nextTask q);
  chain_serialized : serialized (history q)
}.


(** Two chunks arrive in the same tick, then their writes run. *)
Definition two_chunks : queue := enqueue 8 (enqueue 7 init).

Definition step_or_stay (f : queue -> option queue) (q : queue) : queue :=
  match f q with
  | Some q' => q'
  | None => q
  end.

(** The first write runs and settles, then the second one begins. *)
Definition two_writes : queue :=
  step_or_stay (begin 1)
    (step_or_stay (settle 0) (step_or_stay (begin 0) two_chunks)).

End WriteQueue.

(** ** Sample inputs *)

(** The playlist of the scenario: a track of three seconds and one of
    two, played twice. *)
Definition scenario_playlist : list AudioTrack :=
  [mkTrack "a" "first" 3 1; mkTrack "b" "second" 2 2].

Definition scenario_settings : EncodingSettings := mkEncoding 2 128000.


Definition once : EncodingSettings := mkEncoding 1 128000.

Definition balanced : RenderConfig := mkPreset "balanced" "30fps" 30 5000000.

(** A browser in which the picker grants a file and every track decodes
    to a tenth of a second of silence. *)
Definition sample_runtime (support : string -> probe) (canvas : nat -> bool)
  : runtime :=
  mkRuntime true true (fun _ => inr (repeat 0 4800)) support canvas true.

(** A browser in which the payload of the second track of the scenario
    does not decode. *)
Definition second_track_corrupt : runtime :=
  mkRuntime true true
    (fun t => if Nat.eqb (file t) 2
              then inl "EncodingError: unable to decode audio data"%string
              else inr (repeat 0 4800))
    (fun _ => Supported) (fun _ => true) true.

(** A track of three samples, and a browser that decodes it. *)
Definition ramp_playlist : list AudioTrack :=
  [mkTrack "r" "ramp" (3 # 48000) 1].

Definition ramp_runtime : runtime :=
  mkRuntime true true (fun _ => inr [1; 2; 3]) (fun _ => Supported)
    (fun _ => true) true.

(** Reference definition: the signal the compositor is meant to produce,
    the decoded buffers one after the other, the whole repeated [loops]
    times. *)
Definition timeline (trackBuffers : list (list Z)) (loops : nat) : list Z :=
  List.concat (repeat (List.concat trackBuffers) loops).


(** * Properties *)

(** ** Playlist management *)

Example moveTrack_first_up :
  moveTrack (of_list [1; 2; 3]) 0 up = of_list [1; 2; 3].
Proof. reflexivity. Qed.

Example moveTrack_middle_up :
  moveTrack (of_list [1; 2; 3]) 1 up = of_list [2; 1; 3].
Proof. reflexivity. Qed.

Example moveTrack_past_the_end_up :
  moveTrack (of_list [1; 2; 3]) 3 up = [Some 1; Some 2; None; Some 3].
Proof. reflexivity. Qed.

Example moveTrack_negative_down :
  moveTrack (of_list [1; 2; 3]) (-1) down = [None; Some 2; Some 3].
Proof. reflexivity. Qed.

Section MoveTrack.
Context {A : Type}.
Implicit Types (l playlist : list A) (n : nat).

Lemma js_get_nat (a : jsarray A) n : js_get a (Z.of_nat n) = nth n a None.
Proof.
  unfold js_get.
  destruct (Z.ltb_spec (Z.of_nat n) 0) as [H | _]; [lia |].
  now rewrite Nat2Z.id.
Qed.

Lemma js_set_nat (a : jsarray A) n v :
  js_set a (Z.of_nat n) v = replace_at a n v.
Proof.
  unfold js_set.
  destruct (Z.ltb_spec (Z.of_nat n) 0) as [H | _]; [lia |].
  now rewrite Nat2Z.id.
Qed.

Lemma swap_adjacent_length l n :
  List.length (swap_adjacent l n) = List.length l.
Proof.
  revert n; induction l as [| x l IH]; intros [| n]; simpl; trivial.
  - destruct l; reflexivity.
  - now rewrite IH.
Qed.


(** [swap_adjacent] exchanges positions [n] and [n+1] and nothing else. *)
Lemma swap_adjacent_nth_error l n k :
  (S n < List.length l)%nat ->
  nth_error (swap_adjacent l n) k =
  nth_error l (if Nat.eqb k n then S n else if Nat.eqb k (S n) then n else k).
Proof.
  revert n k; induction l as [| x l IH]; intros n k Hn; simpl in Hn; [lia |].
  destruct n as [| n].
  - destruct l as [| y r]; simpl in Hn; [lia |].
    destruct k as [| [| k]]; reflexivity.
  - simpl. destruct k as [| k]; [reflexivity |].
    simpl. rewrite IH by lia.
    change (Nat.eqb (S k) (S n)) with (Nat.eqb k n).
    change (Nat.eqb (S k) (S (S n))) with (Nat.eqb k (S n)).
    destruct (Nat.eqb k n); [reflexivity |].
    destruct (Nat.eqb k (S n)); reflexivity.
Qed.

(** The two writes of [moveTrack] going down from position [n]. *)
Lemma exchange_down l n :
  (S n < List.length l)%nat ->
  replace_at (replace_at (of_list l) n (nth (S n) (of_list l) None))
             (S n) (nth n (of_list l) None)
  = of_list (swap_adjacent l n).
Proof.
  revert n; induction l as [| x l IH]; intros n Hn; simpl in Hn; [lia |].
  destruct n as [| n].
  - destruct l as [| y r]; simpl in Hn; [lia | reflexivity].
  - cbn [of_list map nth replace_at swap_adjacent].
    destruct l as [| y r]; [simpl in Hn; lia |].
    specialize (IH n ltac:(simpl in *; lia)).
    unfold of_list in IH. cbn [map] in *.
    destruct n; cbn [nth replace_at] in *; now rewrite IH.
Qed.

(** The two writes of [moveTrack] going up from position [n+1]. *)
Lemma exchange_up l n :
  (S n < List.length l)%nat ->
  replace_at (replace_at (of_list l) (S n) (nth n (of_list l) None))
             n (nth (S n) (of_list l) None)
  = of_list (swap_adjacent l n).
Proof.
  revert n; induction l as [| x l IH]; intros n Hn; simpl in Hn; [lia |].
  destruct n as [| n].
  - destruct l as [| y r]; simpl in Hn; [lia | reflexivity].
  - cbn [of_list map nth replace_at swap_adjacent].
    destruct l as [| y r]; [simpl in Hn; lia |].
    specialize (IH n ltac:(simpl in *; lia)).
    unfold of_list in IH. cbn [map] in *.
    destruct n; cbn [nth replace_at] in *; now rewrite IH.
Qed.

End MoveTrack.



(** ** The virtual timeline *)

(** The presets on offer all have a positive frame rate, and the one
    selected at first is the balanced one. *)
Lemma presets_positive :
  Forall (fun preset => 0 < fps preset) RENDER_PRESETS
  /\ nth_error RENDER_PRESETS 1 = Some balanced.
Proof. split; [repeat constructor | reflexivity]. Qed.








(** ** The offline pipeline *)

Section OfflineRun.
Import Offline.
Local Open Scope monad_scope.

Lemma bind_normal {A B} (t : list event) (a : A) (f : A -> M B) :
  bind (t, Normal a) f = (t ++ fst (f a), snd (f a)).
Proof. simpl. now destruct (f a). Qed.

Lemma bind_throw {A B} (t : list event) (msg : string) (f : A -> M B) :
  bind (t, Throw msg) f = (t, Throw msg).
Proof. reflexivity. Qed.

(** Decoding a playlist whose tracks all decode. *)
Lemma decode_tracks_ok rt playlist :
  decodes rt playlist ->
  decode_tracks rt playlist
  = (map (fun t => DecodeAudioData (id t)) playlist,
     Normal (decoded rt playlist)).
Proof.
  induction playlist as [| t playlist IH]; intros Hdec; [reflexivity |].
  cbn [decode_tracks decoded map].
  destruct (Hdec t (or_introl eq_refl)) as [buffer Hb]. rewrite Hb.
  rewrite IH by (intros u Hu; apply Hdec; now right).
  cbn. now rewrite app_nil_r.
Qed.

(** Decoding stops at the first track that does not decode. *)
Lemma decode_tracks_fails rt before t after msg :
  decodes rt before ->
  decodeAudioData rt t = inl msg ->
  decode_tracks rt (before ++ t :: after)
  = (map (fun t => DecodeAudioData (id t)) (before ++ [t]), Throw msg).
Proof.
  intros Hdec Ht.
  induction before as [| b before IH]; cbn [decode_tracks app map].
  - now rewrite Ht.
  - destruct (Hdec b (or_introl eq_refl)) as [buffer Hb]. rewrite Hb.
    rewrite IH by (intros u Hu; apply Hdec; now right).
    reflexivity.
Qed.

(** A playlist with a track that does not decode splits at the first
    such track. *)
Lemma first_decode_failure rt playlist :
  (exists t msg, In t playlist /\ decodeAudioData rt t = inl msg) ->
  exists before t after msg,
    playlist = before ++ t :: after /\ decodes rt before
    /\ decodeAudioData rt t = inl msg.
Proof.
  induction playlist as [| u playlist IH]; intros (t & msg & Hin & Ht).
  - destruct Hin.
  - destruct (decodeAudioData rt u) as [m | buffer] eqn:Hu.
    + exists [], u, playlist, m. repeat split; trivial. intros ? [].
    + destruct IH as (before & t' & after & msg' & -> & Hdec & Ht').
      { destruct Hin as [-> | Hin]; [congruence |]. now exists t, msg. }
      exists (u :: before), t', after, msg'. repeat split; trivial.
      intros v [<- | Hv]; [now exists buffer | now apply Hdec].
Qed.

(** The three ways a negotiation ends without throwing. *)
Lemma negotiate_cases rt :
  negotiates rt ->
  (isConfigSupported rt hevc_main = Supported
   /\ negotiate rt
      = ([IsConfigSupported hevc_main], Normal ("hvc1"%string, hevc_main)))
  \/ (isConfigSupported rt hevc_main <> Supported
      /\ isConfigSupported rt avc_high = Supported
      /\ negotiate rt
         = ([IsConfigSupported hevc_main; ConsoleWarn;
             IsConfigSupported avc_high],
            Normal ("avc1"%string, avc_high)))
  \/ (isConfigSupported rt hevc_main <> Supported
      /\ isConfigSupported rt avc_high = Unsupported
      /\ negotiate rt
         = ([IsConfigSupported hevc_main; ConsoleWarn;
             IsConfigSupported avc_high; ConsoleWarn],
            Normal ("avc1"%string, avc_baseline))).
Proof.
  intros Hneg. unfold negotiate.
  destruct (isConfigSupported rt hevc_main) eqn:Hh.
  - left. split; reflexivity.
  - right. destruct Hneg as [Hneg | Hneg]; [congruence |].
    cbn. destruct (isConfigSupported rt avc_high) eqn:Ha.
    + left. repeat split; congruence.
    + right. repeat split; congruence.
    + now destruct (Hneg msg).
  - right. destruct Hneg as [Hneg | Hneg]; [congruence |].
    cbn. destruct (isConfigSupported rt avc_high) eqn:Ha.
    + left. repeat split; congruence.
    + right. repeat split; congruence.
    + now destruct (Hneg msg0).
Qed.

Lemma negotiate_ok rt :
  negotiates rt ->
  exists neg codec,
    negotiate rt = (neg, Normal codec) /\ negotiation_events neg.
Proof.
  intros Hneg.
  destruct (negotiate_cases rt Hneg)
    as [(_ & ->) | [(_ & _ & ->) | (_ & _ & ->)]];
    eexists _, _; (split; [reflexivity |]);
    intros e He; simpl in He;
    repeat (destruct He as [<- | He]; [eauto |]); destruct He.
Qed.

(** The run equation: what a run that goes through does, phase by
    phase. *)
Lemma run_equation rt playlist enc preset used :
  render_starts rt playlist ->
  exists neg codec,
    negotiate rt = (neg, Normal codec) /\ negotiation_events neg
    /\ startOfflineRendering rt playlist enc preset used
       = (setup_events rt playlist enc ++ neg ++ encoder_events codec enc
          ++ loop_events rt playlist enc preset
          ++ audio_events rt playlist enc
          ++ finale_events codec used,
          Normal tt).
Proof.
  intros (Hpicker & Hgrant & Hdec & Hneg).
  destruct (negotiate_ok rt Hneg) as (neg & codec & Hnegotiate & Hevents).
  exists neg, codec. split; [exact Hnegotiate |]. split; [exact Hevents |].
  unfold startOfflineRendering, render_body.
  rewrite Hpicker, Hgrant. cbn [negb].
  rewrite (decode_tracks_ok rt playlist Hdec), Hnegotiate.
  destruct codec as [chosenCodec configCodec].
  cbn [bind emit emit_all ret fst snd try_catch try_finally app].
  unfold setup_events, opening_events, encoder_events, loop_events,
    audio_events, finale_events.
  cbn [fst snd]. f_equal.
  repeat (rewrite <- ?app_assoc; cbn [app]). reflexivity.
Qed.
End OfflineRun.

(** *** What each phase of a run is made of *)

Section Phases.
Import Offline.

Lemma schedule_buffers_shape dst buffers startTime e :
  In e (fst (schedule_buffers dst buffers startTime)) ->
  exists buffer t, e = SourceStart dst buffer t.
Proof.
  revert startTime; induction buffers as [| b buffers IH]; intros startTime;
    cbn [schedule_buffers].
  - intros [].
  - destruct (schedule_buffers dst buffers (startTime + buffer_duration b))
      as [evs t] eqn:Hs.
    cbn [fst]. intros [<- | Hin]; [eauto |].
    apply (IH (startTime + buffer_duration b)%Q). now rewrite Hs.
Qed.

Lemma schedule_loops_shape dst buffers loops startTime e :
  In e (fst (schedule_loops dst buffers loops startTime)) ->
  exists buffer t, e = SourceStart dst buffer t.
Proof.
  revert startTime; induction loops as [| n IH]; intros startTime;
    cbn [schedule_loops].
  - intros [].
  - destruct (schedule_buffers dst buffers startTime) as [evs t] eqn:Hs.
    destruct (schedule_loops dst buffers n t) as [evs' t'] eqn:Hl.
    cbn [fst]. rewrite in_app_iff. intros [Hin | Hin].
    + apply (schedule_buffers_shape dst buffers startTime). now rewrite Hs.
    + apply (IH t). now rewrite Hl.
Qed.

Lemma build_audio_graph_shape buffers loops e :
  In e (build_audio_graph buffers loops) ->
  (exists dst buffer t, e = SourceStart dst buffer t)
  \/ In e [CreateAnalyser; CreateGain;
           Connect MasterGain Destination; Connect MasterGain Analyser].
Proof.
  unfold build_audio_graph. rewrite !in_app_iff. intros [H | [H | H]].
  - left. apply schedule_loops_shape in H. destruct H as (b & t & ->). eauto.
  - now right.
  - left. apply schedule_loops_shape in H. destruct H as (b & t & ->). eauto.
Qed.

Lemma encode_audio_shape fuel offset totalSamples e :
  In e (encode_audio fuel offset totalSamples) ->
  exists ts n, e = AudioEncode ts n.
Proof.
  revert offset; induction fuel as [| fuel IH]; intros offset;
    cbn [encode_audio]; [intros [] |].
  destruct (offset <? totalSamples); [| intros []].
  intros [<- | Hin]; eauto.
Qed.

Lemma frame_callback_shape rt fps frames i e :
  In e (frame_callback rt fps frames i) ->
  e = GetByteFrequencyData
  \/ (exists ms, e = DrawOfflineFrame ms)
  \/ e = CreateImageBitmap
  \/ (exists ts d k, e = VideoEncode ts d k)
  \/ e = SetRenderProgress
           (inject_Z (Z.of_nat i) / inject_Z frames * 90)%Q
  \/ e = Resume.
Proof.
  unfold frame_callback. rewrite !in_app_iff.
  intros [H | [H | H]].
  - destruct H as [<- | []]. now left.
  - destruct (canvasReady rt i); [| destruct H].
    destruct H as [<- | [<- | [<- | []]]]; eauto 10.
  - destruct H as [<- | [<- | []]]; eauto 10.
Qed.

Lemma run_callbacks_shape rt fps frames e :
  In e (run_callbacks rt fps frames) ->
  exists i, (i < Z.to_nat frames)%nat /\ In e (frame_callback rt fps frames i).
Proof.
  unfold run_callbacks. rewrite in_flat_map.
  intros (i & Hi & He). apply in_seq in Hi. exists i. split; [lia | exact He].
Qed.



Lemma video_frames_none l :
  (forall ts d k, ~ In (VideoEncode ts d k) l) -> video_frames l = [].
Proof.
  induction l as [| e l IH]; intros H; [reflexivity |].
  assert (video_frames l = []) as Hl
    by (apply IH; intros ts d k Hin; apply (H ts d k); now right).
  destruct e; cbn [video_frames]; trivial.
  now destruct (H timestamp duration0 key (or_introl eq_refl)).
Qed.

Lemma audio_chunks_none l :
  (forall ts n, ~ In (AudioEncode ts n) l) -> audio_chunks l = [].
Proof.
  induction l as [| e l IH]; intros H; [reflexivity |].
  assert (audio_chunks l = []) as Hl
    by (apply IH; intros ts n Hin; apply (H ts n); now right).
  destruct e; cbn [audio_chunks]; trivial.
  now destruct (H timestamp numberOfFrames (or_introl eq_refl)).
Qed.


End Phases.

(** Closes a goal that has an action among the actions of a phase it
    cannot belong to. *)
Ltac wrong_phase :=
  repeat match goal with
    | H : _ \/ _ |- _ => destruct H
    | H : exists _, _ |- _ => destruct H
    | H : _ /\ _ |- _ => destruct H
    | H : In _ (Offline.frame_callback _ _ _ _) |- _ =>
        apply frame_callback_shape in H
    | H : In _ Offline.opening_events |- _ => unfold Offline.opening_events in H
    | H : In _ (Offline.encoder_events _ _) |- _ =>
        unfold Offline.encoder_events in H
    | H : In _ (_ :: _) |- _ => destruct H
    | H : In _ [] |- _ => destruct H
    end;
  try discriminate; try congruence.

Section RunEvents.
Import Offline.



End RunEvents.

(** *** The render loop *)

Section RenderLoop.
Import Offline.

Lemma seq_sorted (a n : nat) : StronglySorted lt (seq a n).
Proof.
  revert a; induction n as [| n IH]; intros a; cbn [seq]; constructor.
  - apply IH.
  - apply Forall_forall. intros x Hx. apply in_seq in Hx. lia.
Qed.





End RenderLoop.

Section RenderLoopRuns.
Import Offline.

Example ramp_run :
  startOfflineRendering ramp_runtime ramp_playlist once balanced ""
  = ([ShowSaveFilePicker; SetShowRenderModal false; SetIsRendering true;
      SetRenderProgress 0; SetRenderStatusText StatusPreparing;
      NewAudioContext; DecodeAudioData "r"; CloseAudioContext;
      NewOfflineAudioContext 2 3 48000;
      SourceStart Destination [1; 2; 3] 0;
      CreateAnalyser; CreateGain;
      Connect MasterGain Destination; Connect MasterGain Analyser;
      SourceStart MasterGain [1; 2; 3] 0;
      IsConfigSupported "hvc1.1.6.L120.B0";
      SetUsedCodec "HEVC (H.265)"; CreateWritable; NewMuxer "hvc1";
      VideoConfigure "hvc1.1.6.L120.B0"; AudioConfigure 128000;
      SetRenderStatusText StatusRendering;
      Suspend (0 # 30); StartRendering;
      GetByteFrequencyData; DrawOfflineFrame (0 # 30); CreateImageBitmap;
      VideoEncode (0 # 30) (1000000 # 30) true;
      SetRenderProgress 0; Resume;
      SetRenderStatusText StatusAudioEncoding;
      AudioEncode (0 # 48000) 3;
      SetRenderStatusText StatusPackaging;
      VideoFlush; AudioFlush; MuxerFinalize; SetRenderProgress 100;
      Alert (RenderComplete "hvc1"); SetIsRendering false],
     Normal tt).
Proof. vm_compute. reflexivity. Qed.

Lemma sample_runtime_starts support canvas playlist :
  support hevc_main = Supported ->
  render_starts (sample_runtime support canvas) playlist.
Proof.
  intros Hs. repeat split.
  - intros t _. now exists (repeat 0 4800).
  - now left.
Qed.





End RenderLoopRuns.

(** *** Failures while preparing *)

Section Preparing.
Import Offline.

(** C5. When a track of the playlist does not decode, the run stops at
    the first such track: the decoding error is reported in an alert,
    no offline context is created and no source is scheduled, and
    neither encoder is handed anything. *)
Theorem decode_failure_aborts rt playlist enc preset used :
  hasShowSaveFilePicker rt = true ->
  pickerGrants rt = true ->
  (exists t msg, In t playlist /\ decodeAudioData rt t = inl msg) ->
  exists before t after msg,
    playlist = before ++ t :: after
    /\ decodes rt before
    /\ decodeAudioData rt t = inl msg
    /\ startOfflineRendering rt playlist enc preset used
       = (opening_events
          ++ map (fun t => DecodeAudioData (id t)) (before ++ [t])
          ++ [ConsoleError msg; Alert (RenderError msg);
              SetIsRendering false],
          Normal tt)
    /\ let tr := trace (startOfflineRendering rt playlist enc preset used) in
       video_frames tr = [] /\ audio_chunks tr = []
       /\ (forall channels length rate,
             ~ In (NewOfflineAudioContext channels length rate) tr)
       /\ (forall dst buffer startTime,
             ~ In (SourceStart dst buffer startTime) tr).
Proof.
  intros Hpicker Hgrant Hfail.
  destruct (first_decode_failure rt playlist Hfail)
    as (before & t & after & msg & -> & Hdec & Ht).
  exists before, t, after, msg.
  assert (startOfflineRendering rt (before ++ t :: after) enc preset used
          = (opening_events
             ++ map (fun t => DecodeAudioData (id t)) (before ++ [t])
             ++ [ConsoleError msg; Alert (RenderError msg);
                 SetIsRendering false],
             Normal tt)) as Hrun.
  { unfold startOfflineRendering, render_body.
    rewrite Hpicker, Hgrant. cbn [negb].
    rewrite (decode_tracks_fails rt before t after msg Hdec Ht).
    cbn [bind emit emit_all ret fst snd try_catch try_finally app].
    unfold opening_events. cbn [app].
    now rewrite <- !app_assoc. }
  repeat (split; [assumption || reflexivity |]).
  rewrite Hrun. cbn [trace fst].
  assert (forall e,
            In e (opening_events
                  ++ map (fun t => DecodeAudioData (id t)) (before ++ [t])
                  ++ [ConsoleError msg; Alert (RenderError msg);
                      SetIsRendering false]) ->
            In e opening_events
            \/ (exists track, e = DecodeAudioData track)
            \/ In e [ConsoleError msg; Alert (RenderError msg);
                     SetIsRendering false]) as Hshape.
  { intros e. rewrite !in_app_iff. intros [H | [H | H]]; auto.
    apply in_map_iff in H. destruct H as (u & <- & _). eauto. }
  repeat split.
  - apply video_frames_none. intros ts d k H. apply Hshape in H. wrong_phase.
  - apply audio_chunks_none. intros ts n H. apply Hshape in H. wrong_phase.
  - intros c l r H. apply Hshape in H. wrong_phase.
  - intros dst b s H. apply Hshape in H. wrong_phase.
Qed.
End Preparing.

Section PreparingRuns.
Import Offline.

Example second_track_fails :
  startOfflineRendering second_track_corrupt scenario_playlist
    scenario_settings balanced ""
  = ([ShowSaveFilePicker; SetShowRenderModal false; SetIsRendering true;
      SetRenderProgress 0; SetRenderStatusText StatusPreparing;
      NewAudioContext; DecodeAudioData "a"; DecodeAudioData "b";
      ConsoleError "EncodingError: unable to decode audio data";
      Alert (RenderError "EncodingError: unable to decode audio data");
      SetIsRendering false],
     Normal tt).
Proof. reflexivity. Qed.

Lemma decode_failure_aborts_witness :
  exists before t after msg,
    scenario_playlist = before ++ t :: after
    /\ decodes second_track_corrupt before
    /\ decodeAudioData second_track_corrupt t = inl msg
    /\ startOfflineRendering second_track_corrupt scenario_playlist
         scenario_settings balanced ""
       = (opening_events
          ++ map (fun t => DecodeAudioData (id t)) (before ++ [t])
          ++ [ConsoleError msg; Alert (RenderError msg);
              SetIsRendering false],
          Normal tt)
    /\ let tr := trace (startOfflineRendering second_track_corrupt
                          scenario_playlist scenario_settings balanced "") in
       video_frames tr = [] /\ audio_chunks tr = []
       /\ (forall channels length rate,
             ~ In (NewOfflineAudioContext channels length rate) tr)
       /\ (forall dst buffer startTime,
             ~ In (SourceStart dst buffer startTime) tr).
Proof.
  apply (decode_failure_aborts second_track_corrupt scenario_playlist
           scenario_settings balanced "").
  - reflexivity.
  - reflexivity.
  - exists (mkTrack "b" "second" 2 2),
           "EncodingError: unable to decode audio data"%string.
    split; [simpl; tauto | reflexivity].
Defined.
End PreparingRuns.

(** *** Codec negotiation *)

Section Negotiation.
Import Offline.




End Negotiation.

(** *** Finalizing *)

Section Finalizing.
Import Offline.


End Finalizing.

(** ** The recorder pipeline *)

Section RecorderFacts.
Import Recorder.
Variables (mr : option recorder_state) (os sp : bool)
  (w : option sink_state) (q f : list nat) (g : option Q) (ir ip : bool)
  (rp : Q) (lg : list event).

(** The primitive actions on a state given by its fields. *)
Lemma say_mk e :
  say e (mkStudio mr os sp w q f g ir ip rp lg)
  = mkStudio mr os sp w q f g ir ip rp (lg ++ [e]).
Proof. reflexivity. Qed.

Lemma set_recorder_mk r h p :
  set_recorder r h p (mkStudio mr os sp w q f g ir ip rp lg)
  = mkStudio r h p w q f g ir ip rp lg.
Proof. reflexivity. Qed.

Lemma set_sink_mk w' q' f' :
  set_sink w' q' f' (mkStudio mr os sp w q f g ir ip rp lg)
  = mkStudio mr os sp w' q' f' g ir ip rp lg.
Proof. reflexivity. Qed.

Lemma setIsRendering_mk b :
  setIsRendering b (mkStudio mr os sp w q f g ir ip rp lg)
  = mkStudio mr os sp w q f g b ip rp (lg ++ [SetIsRendering b]).
Proof. reflexivity. Qed.

Lemma setIsPlaying_mk b :
  setIsPlaying b (mkStudio mr os sp w q f g ir ip rp lg)
  = mkStudio mr os sp w q f g ir b rp (lg ++ [SetIsPlaying b]).
Proof. reflexivity. Qed.

Lemma setRenderProgress_mk p :
  setRenderProgress p (mkStudio mr os sp w q f g ir ip rp lg)
  = mkStudio mr os sp w q f g ir ip p (lg ++ [SetRenderProgress p]).
Proof. reflexivity. Qed.

Lemma setGain_mk v :
  setGain v (mkStudio mr os sp w q f g ir ip rp lg)
  = match g with
    | Some _ => mkStudio mr os sp w q f (Some v) ir ip rp (lg ++ [SetGain v])
    | None => mkStudio mr os sp w q f g ir ip rp lg
    end.
Proof. now destruct g. Qed.

Lemma skip_mk : skip (mkStudio mr os sp w q f g ir ip rp lg)
                = mkStudio mr os sp w q f g ir ip rp lg.
Proof. reflexivity. Qed.
End RecorderFacts.

Create Rewrite HintDb studio.

#[local] Hint Rewrite say_mk set_recorder_mk set_sink_mk setIsRendering_mk
  setIsPlaying_mk setRenderProgress_mk setGain_mk skip_mk : studio.

(** Reduces the projections of a state that is given by its fields. *)
Ltac fields :=
  cbn [Recorder.mediaRecorder Recorder.onstop Recorder.stopPending
       Recorder.writableStream Recorder.pendingWrites Recorder.fileData
       Recorder.gain Recorder.isRendering Recorder.isPlaying
       Recorder.renderProgress Recorder.log] in *.

(** Runs a sequence of primitive actions from a state given by its
    fields. *)
Ltac run_actions :=
  unfold Recorder.and_then;
  repeat (progress (autorewrite with studio; cbv beta; fields)).

Section RecorderHandlers.
Import Recorder.




Lemma startRendering_rendering rt s :
  refsReady rt = true -> hasPicker rt = true ->
  pickerOutcome rt = PickerGranted -> recorderInitSucceeds rt = true ->
  gain s <> None ->
  rendering (startRendering rt s)
  /\ pendingWrites (startRendering rt s) = []
  /\ fileData (startRendering rt s) = [].
Proof.
  destruct s as [mr os sp w q f g ir ip rp lg]. fields.
  intros Hr Hp Hg Hi Hgain.
  unfold startRendering. rewrite Hr, Hp, Hg, Hi. cbn [negb].
  destruct g as [v |]; [| congruence].
  unfold rendering. run_actions. repeat split; reflexivity.
Qed.

Lemma rendering_data s blob size :
  rendering s -> rendering (ondataavailable blob size s).
Proof.
  destruct s as [mr os sp w q f g ir ip rp lg].
  unfold rendering, ondataavailable. fields.
  intros (-> & -> & -> & -> & -> & ->).
  destruct (0 <? size); run_actions; repeat split; reflexivity.
Qed.

Lemma rendering_write s : rendering s -> rendering (run_write s).
Proof.
  destruct s as [mr os sp w q f g ir ip rp lg].
  unfold rendering, run_write. fields.
  intros (-> & -> & -> & -> & -> & ->).
  destruct q; run_actions; repeat split; reflexivity.
Qed.
End RecorderHandlers.

Section RecorderRuns.
Import Recorder.

Example finished_session_log :
  log finished_session
  = [ShowSaveFilePicker; CreateWritable; SetShowRenderModal false;
     SetIsRendering true; SetRenderProgress 0;
     SetRenderStatusText StatusDiskMode; SetGain 0;
     NewMediaRecorder "video/mp4; codecs=avc1.4d002a, mp4a.40.2";
     RecorderStart 1000; SetIsPlaying true; AudioPlay;
     SinkWrite 1; RecorderStop; AudioPause;
     SetRenderStatusText StatusFinishingSave; SetRenderProgress 100;
     SinkWrite 2; AwaitWriteQueue; SinkClose; Alert SaveComplete;
     SetIsRendering false; SetIsPlaying false; SetRenderProgress 0;
     SetGain 1]
  /\ writableStream finished_session = Some SinkIsClosed
  /\ fileData finished_session = [1; 2]%nat.
Proof. repeat split; vm_compute; reflexivity. Qed.

Example cancelled_session_log :
  log cancelled_session
  = [ShowSaveFilePicker; CreateWritable; SetShowRenderModal false;
     SetIsRendering true; SetRenderProgress 0;
     SetRenderStatusText StatusDiskMode; SetGain 0;
     NewMediaRecorder "video/mp4; codecs=avc1.4d002a, mp4a.40.2";
     RecorderStart 1000; SetIsPlaying true; AudioPlay;
     SinkWrite 1; RecorderStop; SinkAbort;
     SetIsRendering false; SetIsPlaying false; AudioPause; SetGain 1;
     ConsoleError "Stream write error"; ConsoleError "Stream write error"]
  /\ writableStream cancelled_session = Some SinkIsErrored
  /\ gain cancelled_session = Some 1%Q.
Proof. repeat split; vm_compute; reflexivity. Qed.
End RecorderRuns.

(** ** Finalizing and cancelling *)

Section EndOfRender.



End EndOfRender.

Section Cancelling.
Import Recorder.






End Cancelling.

(** ** The sequential write queue *)

Section WriteQueueFacts.
Import WriteQueue.

Lemma last_case {A} (l : list A) : l = [] \/ exists l' x, l = l' ++ [x].
Proof. destruct l using rev_ind; eauto. Qed.

Lemma serialized_snoc (h : list io) (e : io) :
  serialized h ->
  (forall t, e = WriteBegins t ->
             forall a, (a < t)%nat -> In (WriteSettles a) h) ->
  serialized (h ++ [e]).
Proof.
  intros Hh He h1 h2 a b Heq Hab.
  destruct (last_case h2) as [-> | (h2' & x & ->)].
  - apply app_inj_tail in Heq. destruct Heq as [<- ->]. now apply (He b).
  - change (h ++ [e] = h1 ++ (WriteBegins b :: h2') ++ [x]) in Heq.
    rewrite app_assoc in Heq. apply app_inj_tail in Heq.
    destruct Heq as [-> _]. now apply (Hh h1 h2' a b).
Qed.

Lemma enqueued_snoc (h : list io) (e : io) :
  enqueued (h ++ [e])
  = enqueued h ++ match e with Enqueued t => [t] | _ => [] end.
Proof.
  induction h as [| x h IH]; [now destruct e |].
  destruct x; cbn [app enqueued]; now rewrite IH.
Qed.

Lemma upd_same {A} (f : nat -> option A) k v : upd f k v k = Some v.
Proof. unfold upd. now rewrite Nat.eqb_refl. Qed.

Lemma upd_other {A} (f : nat -> option A) k v n :
  n <> k -> upd f k v n = f n.
Proof. unfold upd. intros H. now apply Nat.eqb_neq in H as ->. Qed.

Lemma chained_init : chained init.
Proof.
  constructor; unfold init;
    cbn [nextPromise nextTask writeQueueRef promise task history].
  - reflexivity.
  - reflexivity.
  - intros t Ht. lia.
  - reflexivity.
  - reflexivity.
  - intros t Ht. lia.
  - intros a t _ (st & H & _). discriminate.
  - intros t H. discriminate.
  - reflexivity.
  - intros h1 h2 a b H. now destruct h1.
Qed.

(** A task that exists is one of the chain. *)
Lemma task_in_chain q t b c o st :
  chained q -> task q t = Some (mkTask b c o st) ->
  (t < nextTask q)%nat /\ c = t /\ o = S t.
Proof.
  intros Hq Ht.
  destruct (Nat.lt_ge_cases t (nextTask q)) as [Hlt | Hge].
  - destruct (chain_task q Hq t Hlt) as (b' & st' & H).
    rewrite H in Ht. injection Ht as -> -> -> ->. auto.
  - rewrite (chain_none q Hq t Hge) in Ht. discriminate.
Qed.

Lemma chained_enqueue q b : chained q -> chained (enqueue b q).
Proof.
  intros Hq. pose proof (chain_next q Hq) as Hn.
  pose proof (chain_ref q Hq) as Hr.
  constructor; unfold enqueue; cbn [nextPromise nextTask writeQueueRef
                                     promise task history].
  - now rewrite Hn.
  - exact Hn.
  - intros t Ht. destruct (Nat.eq_dec t (nextTask q)) as [-> | Hne].
    + rewrite upd_same, Hr, Hn. eauto.
    + rewrite upd_other by exact Hne. apply (chain_task q Hq). lia.
  - intros t Ht. rewrite upd_other by lia. apply (chain_none q Hq). lia.
  - rewrite upd_other by lia. apply (chain_first q Hq).
  - intros t Ht. unfold status_of. cbn [task].
    destruct (Nat.eq_dec t (nextTask q)) as [-> | Hne].
    + rewrite Hn, !upd_same. cbn. split; discriminate.
    + rewrite !upd_other by lia. apply (chain_promise q Hq). lia.
  - intros a t Hat (st & Hst & Hw).
    unfold status_of in Hst |- *. cbn [task] in Hst |- *.
    destruct (Nat.eq_dec t (nextTask q)) as [-> | Hne].
    + rewrite upd_same in Hst. cbn in Hst. congruence.
    + rewrite upd_other in Hst by exact Hne.
      assert (status_of q a = Some done) as Ha
        by (apply (chain_order q Hq a t Hat); eauto).
      destruct (Nat.eq_dec a (nextTask q)) as [-> | Hne'].
      * unfold status_of in Ha.
        rewrite (chain_none q Hq (nextTask q)) in Ha by lia. discriminate.
      * now rewrite upd_other.
  - intros t Ht. unfold status_of in Ht. cbn [task] in Ht.
    destruct (Nat.eq_dec t (nextTask q)) as [-> | Hne].
    + rewrite upd_same in Ht. discriminate.
    + rewrite upd_other in Ht by exact Hne.
      apply in_or_app. left. now apply (chain_settled q Hq).
  - rewrite enqueued_snoc, (chain_enqueued q Hq), seq_S. reflexivity.
  - apply serialized_snoc; [apply (chain_serialized q Hq) | discriminate].
Qed.

Lemma chained_begin q q' t :
  chained q -> begin t q = Some q' -> chained q'.
Proof.
  intros Hq Hbegin. unfold begin in Hbegin.
  destruct (task q t) as [[b c o [| |]] |] eqn:Ht; try discriminate.
  destruct (promise q c) as [[|] |] eqn:Hc; try discriminate.
  injection Hbegin as <-.
  destruct (task_in_chain q t b c o waiting Hq Ht) as (Hlt & -> & ->).
  assert (forall a, (a < t)%nat -> status_of q a = Some done) as Hbefore.
  { intros a Ha. destruct t as [| u]; [lia |].
    assert (status_of q u = Some done) as Hu
      by (apply (chain_promise q Hq u); [lia | exact Hc]).
    destruct (Nat.eq_dec a u) as [-> | Hne]; [exact Hu |].
    apply (chain_order q Hq a u); [lia |].
    exists done. split; [exact Hu | discriminate]. }
  assert (status_of q t = Some waiting) as Hst
    by (unfold status_of; now rewrite Ht).
  constructor; cbn [nextPromise nextTask writeQueueRef promise task history].
  - apply (chain_next q Hq).
  - apply (chain_ref q Hq).
  - intros u Hu. destruct (Nat.eq_dec u t) as [-> | Hne].
    + rewrite upd_same. eauto.
    + rewrite upd_other by exact Hne. now apply (chain_task q Hq).
  - intros u Hu. rewrite upd_other by lia. now apply (chain_none q Hq).
  - apply (chain_first q Hq).
  - intros u Hu. unfold status_of. cbn [task].
    destruct (Nat.eq_dec u t) as [-> | Hne].
    + rewrite upd_same. cbn.
      pose proof (chain_promise q Hq t Hlt) as H. rewrite Hst in H.
      split; [intros H'; apply H in H'; discriminate | discriminate].
    + rewrite upd_other by exact Hne. now apply (chain_promise q Hq).
  - intros a u Hau (st & Hu & Hw).
    unfold status_of in Hu |- *. cbn [task] in Hu |- *.
    assert (status_of q a = Some done) as Ha.
    { destruct (Nat.eq_dec u t) as [-> | Hne]; [now apply Hbefore |].
      rewrite upd_other in Hu by exact Hne.
      apply (chain_order q Hq a u Hau). eauto. }
    destruct (Nat.eq_dec a t) as [-> | Hne]; [congruence |].
    now rewrite upd_other.
  - intros u Hu. unfold status_of in Hu. cbn [task] in Hu.
    destruct (Nat.eq_dec u t) as [-> | Hne].
    + rewrite upd_same in Hu. discriminate.
    + rewrite upd_other in Hu by exact Hne.
      apply in_or_app. left. now apply (chain_settled q Hq).
  - rewrite enqueued_snoc, app_nil_r. apply (chain_enqueued q Hq).
  - apply serialized_snoc; [apply (chain_serialized q Hq) |].
    intros u Hu a Ha. injection Hu as <-.
    apply (chain_settled q Hq). now apply Hbefore.
Qed.

Lemma chained_settle q q' t :
  chained q -> settle t q = Some q' -> chained q'.
Proof.
  intros Hq Hsettle. unfold settle in Hsettle.
  destruct (task q t) as [[b c o [| |]] |] eqn:Ht; try discriminate.
  injection Hsettle as <-.
  destruct (task_in_chain q t b c o writing Hq Ht) as (Hlt & -> & ->).
  assert (status_of q t = Some writing) as Hst
    by (unfold status_of; now rewrite Ht).
  constructor; cbn [nextPromise nextTask writeQueueRef promise task history].
  - apply (chain_next q Hq).
  - apply (chain_ref q Hq).
  - intros u Hu. destruct (Nat.eq_dec u t) as [-> | Hne].
    + rewrite upd_same. eauto.
    + rewrite upd_other by exact Hne. now apply (chain_task q Hq).
  - intros u Hu. rewrite upd_other by lia. now apply (chain_none q Hq).
  - rewrite upd_other by lia. apply (chain_first q Hq).
  - intros u Hu. unfold status_of. cbn [task].
    destruct (Nat.eq_dec u t) as [-> | Hne].
    + rewrite !upd_same. cbn. tauto.
    + rewrite !upd_other by lia. now apply (chain_promise q Hq).
  - intros a u Hau (st & Hu & Hw).
    unfold status_of in Hu |- *. cbn [task] in Hu |- *.
    destruct (Nat.eq_dec a t) as [-> | Hne]; [now rewrite upd_same |].
    rewrite upd_other by exact Hne.
    apply (chain_order q Hq a u Hau).
    destruct (Nat.eq_dec u t) as [-> | Hne'].
    + exists writing. split; [exact Hst | discriminate].
    + rewrite upd_other in Hu by exact Hne'. eauto.
  - intros u Hu. unfold status_of in Hu. cbn [task] in Hu.
    apply in_or_app.
    destruct (Nat.eq_dec u t) as [-> | Hne]; [right; now left |].
    rewrite upd_other in Hu by exact Hne.
    left. now apply (chain_settled q Hq).
  - rewrite enqueued_snoc, app_nil_r. apply (chain_enqueued q Hq).
  - apply serialized_snoc; [apply (chain_serialized q Hq) | discriminate].
Qed.

Lemma reachable_chained q : reachable q -> chained q.
Proof.
  induction 1 as [| q q' _ IH Hstep]; [apply chained_init |].
  destruct Hstep as [q b | q q' t H | q q' t H].
  - now apply chained_enqueue.
  - now apply (chained_begin q q' t).
  - now apply (chained_settle q q' t).
Qed.

(** In the list [0, 1, ..., n-1], what comes first is smaller. *)
Lemma seq_order (n a b : nat) (l1 l2 l3 : list nat) :
  seq 0 n = l1 ++ a :: l2 ++ b :: l3 -> (a < b)%nat.
Proof.
  intros Heq. pose proof (seq_sorted 0 n) as Hs. rewrite Heq in Hs.
  clear Heq. induction l1 as [| x l1 IH]; cbn [app] in Hs.
  - apply StronglySorted_inv in Hs. destruct Hs as [_ Hall].
    rewrite Forall_forall in Hall. apply Hall.
    apply in_or_app. right. now left.
  - apply StronglySorted_inv in Hs. now apply IH.
Qed.

Lemma enqueued_app (h k : list io) :
  enqueued (h ++ k) = enqueued h ++ enqueued k.
Proof.
  induction h as [| x h IH]; [reflexivity |].
  destruct x; cbn [app enqueued]; now rewrite IH.
Qed.

(** C8. Whatever the order in which chunks arrive and writes settle,
    if the callback of [a] was chained before that of [b], then by the
    time the write of [b] begins the write of [a] has settled. *)
Theorem writes_do_not_interleave (q : queue) (a b : nat)
  (h1 h2 h3 k1 k2 : list io) :
  reachable q ->
  history q = h1 ++ Enqueued a :: h2 ++ Enqueued b :: h3 ->
  history q = k1 ++ WriteBegins b :: k2 ->
  In (WriteSettles a) k1.
Proof.
  intros Hreach Henq Hbegin.
  pose proof (reachable_chained q Hreach) as Hq.
  apply (chain_serialized q Hq k1 k2 a b Hbegin).
  pose proof (chain_enqueued q Hq) as He.
  rewrite Henq in He.
  rewrite enqueued_app in He. cbn [enqueued] in He.
  rewrite enqueued_app in He. cbn [enqueued] in He.
  exact (seq_order _ _ _ _ _ _ (eq_sym He)).
Qed.
End WriteQueueFacts.

Section WriteQueueRuns.
Import WriteQueue.

Example second_write_waits :
  begin 1 two_chunks = None
  /\ (exists q, begin 0 two_chunks = Some q /\ begin 1 q = None)
  /\ history two_writes
     = [Enqueued 0; Enqueued 1; WriteBegins 0; WriteSettles 0;
        WriteBegins 1].
Proof.
  split; [reflexivity |]. split; [| reflexivity].
  eexists. split; reflexivity.
Qed.

Lemma two_writes_reachable : reachable two_writes.
Proof.
  pose (q1 := step_or_stay (begin 0) two_chunks).
  pose (q2 := step_or_stay (settle 0) q1).
  apply (reach_step q2); [| apply (step_begin q2 _ 1); reflexivity].
  apply (reach_step q1); [| apply (step_settle q1 _ 0); reflexivity].
  apply (reach_step two_chunks);
    [| apply (step_begin two_chunks _ 0); reflexivity].
  apply (reach_step (enqueue 7 init)); [| apply (step_enqueue _ 8)].
  apply (reach_step init); [| apply (step_enqueue _ 7)].
  apply reach_init.
Qed.

Lemma writes_do_not_interleave_witness :
  In (WriteSettles 0)
     [Enqueued 0; Enqueued 1; WriteBegins 0; WriteSettles 0].
Proof.
  apply (writes_do_not_interleave two_writes 0 1
           [] [] [WriteBegins 0; WriteSettles 0; WriteBegins 1]
           [Enqueued 0; Enqueued 1; WriteBegins 0; WriteSettles 0] []).
  - exact two_writes_reachable.
  - reflexivity.
  - reflexivity.
Defined.
End WriteQueueRuns.

(** ** The audio timeline *)

Section Compositor.
Import Offline.

Lemma start_frame_on_frame startTime k :
  on_frame startTime k -> start_frame startTime = k.
Proof.
  unfold on_frame, start_frame. intros H.
  assert (startTime * inject_Z sampleRate == inject_Z (Z.of_nat k))%Q as ->
    by (rewrite H; field; discriminate).
  now rewrite Qfloor_Z, Nat2Z.id.
Qed.

Lemma on_frame_advance startTime k buffer :
  on_frame startTime k ->
  on_frame (startTime + buffer_duration buffer) (k + List.length buffer).
Proof.
  unfold on_frame, buffer_duration, duration_of_frames. intros ->.
  rewrite Nat2Z.inj_add, inject_Z_plus. field. discriminate.
Qed.

Lemma sample_at_app buffer rest start k :
  sample_at (buffer ++ rest) start k
  = sample_at buffer start k
    + sample_at rest (start + List.length buffer) k.
Proof.
  unfold sample_at.
  destruct (Nat.ltb_spec k start) as [H | H].
  - destruct (Nat.ltb_spec k (start + List.length buffer)); [reflexivity | lia].
  - destruct (Nat.ltb_spec k (start + List.length buffer)) as [H' | H'].
    + rewrite app_nth1 by lia. lia.
    + rewrite app_nth2 by lia. rewrite (nth_overflow buffer) by lia.
      rewrite Z.add_0_l. f_equal. lia.
Qed.

Lemma sample_at_nil start k : sample_at [] start k = 0.
Proof. unfold sample_at. destruct (k <? start)%nat; now destruct (k - start)%nat. Qed.

Lemma mix_at_app graph a b k :
  mix_at graph (a ++ b) k = mix_at graph a k + mix_at graph b k.
Proof.
  induction a as [| e a IH]; [reflexivity |].
  destruct e; cbn [app mix_at]; rewrite IH; lia.
Qed.

(** One pass over the buffers plays their concatenation. *)
Lemma mix_schedule_buffers graph dst buffers : forall startTime start k,
  feeds_destination graph dst = true ->
  on_frame startTime start ->
  mix_at graph (fst (schedule_buffers dst buffers startTime)) k
  = sample_at (List.concat buffers) start k
  /\ on_frame (snd (schedule_buffers dst buffers startTime))
              (start + List.length (List.concat buffers)).
Proof.
  induction buffers as [| b buffers IH]; intros startTime start k Hfeed Hon;
    cbn [schedule_buffers List.concat].
  - cbn [fst snd mix_at List.length]. rewrite sample_at_nil, Nat.add_0_r.
    now split.
  - destruct (IH (startTime + buffer_duration b)%Q
                 (start + List.length b)%nat k Hfeed
                 (on_frame_advance startTime start b Hon)) as [Hmix Hend].
    destruct (schedule_buffers dst buffers (startTime + buffer_duration b))
      as [evs t].
    cbn [fst snd] in *. cbn [mix_at]. rewrite Hfeed, Hmix.
    rewrite (start_frame_on_frame startTime start Hon).
    split; [now rewrite sample_at_app |].
    now rewrite length_app, Nat.add_assoc.
Qed.

(** The passes of the loop play the concatenation over and over. *)
Lemma mix_schedule_loops graph dst buffers loops : forall startTime start k,
  feeds_destination graph dst = true ->
  on_frame startTime start ->
  mix_at graph (fst (schedule_loops dst buffers loops startTime)) k
  = sample_at (timeline buffers loops) start k.
Proof.
  induction loops as [| n IH]; intros startTime start k Hfeed Hon;
    cbn [schedule_loops].
  - cbn [fst mix_at]. unfold timeline. cbn. now rewrite sample_at_nil.
  - destruct (mix_schedule_buffers graph dst buffers startTime start k
                Hfeed Hon) as [Hmix Hend].
    destruct (schedule_buffers dst buffers startTime) as [evs t].
    cbn [fst snd] in *.
    specialize (IH t (start + List.length (List.concat buffers))%nat k
                  Hfeed Hend).
    destruct (schedule_loops dst buffers n t) as [evs' t'].
    cbn [fst] in *. rewrite mix_at_app, Hmix, IH.
    unfold timeline. cbn [repeat List.concat].
    now rewrite sample_at_app.
Qed.

Lemma graph_feeds_destination buffers loops dst :
  dst <> Analyser ->
  feeds_destination (build_audio_graph buffers loops) dst = true.
Proof.
  intros Hdst. destruct dst; [reflexivity | | congruence].
  cbn [feeds_destination]. unfold build_audio_graph.
  rewrite !existsb_app. cbn. now rewrite orb_true_r.
Qed.

(** Every frame of the rendered buffer is twice the frame of the
    timeline: each source is started once on the destination and once
    on the master gain, which feeds the destination too. *)
Lemma rendered_is_doubled buffers loops length :
  renderedBuffer (build_audio_graph buffers loops) length
  = map (fun k => 2 * nth k (timeline buffers loops) 0)
        (seq 0 (Z.to_nat length)).
Proof.
  unfold renderedBuffer. apply map_ext. intros k.
  assert (forall graph,
            feeds_destination graph Destination = true ->
            feeds_destination graph MasterGain = true ->
            mix_at graph (build_audio_graph buffers loops) k
            = 2 * nth k (timeline buffers loops) 0) as H.
  { intros graph Hd Hm.
    assert (on_frame 0 0) as H0 by reflexivity.
    unfold build_audio_graph. rewrite !mix_at_app.
    rewrite (mix_schedule_loops graph Destination buffers loops 0%Q 0%nat k)
      by trivial.
    rewrite (mix_schedule_loops graph MasterGain buffers loops 0%Q 0%nat k)
      by trivial.
    cbn [mix_at]. unfold sample_at. cbn [Nat.ltb Nat.leb].
    rewrite Nat.sub_0_r. lia. }
  apply H; now apply graph_feeds_destination.
Qed.

(** C2, at a playlist of one track of three samples played once: the
    track is decoded once and the offline context has the length of the
    timeline, but the rendered signal is not the decoded track: every
    sample is scheduled twice and comes out doubled. *)
Theorem rendered_twice_as_loud :
  let run := startOfflineRendering ramp_runtime ramp_playlist once
               balanced "" in
  let graph := build_audio_graph (decoded ramp_runtime ramp_playlist) 1 in
  timeline (decoded ramp_runtime ramp_playlist) 1 = [1; 2; 3]
  /\ filter (fun e => match e with DecodeAudioData _ => true | _ => false end)
            (trace run)
     = [DecodeAudioData "r"]
  /\ filter (fun e => match e with SourceStart _ _ _ => true | _ => false end)
            (trace run)
     = [SourceStart Destination [1; 2; 3] 0;
        SourceStart MasterGain [1; 2; 3] 0]
  /\ In (Connect MasterGain Destination) (trace run)
  /\ totalDurationSamples ramp_playlist once = 3
  /\ renderedBuffer graph (totalDurationSamples ramp_playlist once)
     = [2; 4; 6].
Proof.
  split; [reflexivity |]. split; [vm_compute; reflexivity |].
  split; [vm_compute; reflexivity |]. split; [| split; reflexivity].
  vm_compute. repeat (first [left; reflexivity | right]).
Qed.
End Compositor.


(** * Further properties of the component *)

(** ** Editing the playlist *)

Lemma removeTrack_app (trackId : string) (before after : list AudioTrack) :
  removeTrack trackId (before ++ after)
  = removeTrack trackId before ++ removeTrack trackId after.
Proof. unfold removeTrack. apply filter_app. Qed.

Lemma removeTrack_absent (trackId : string) (playlist : list AudioTrack) :
  (forall t, In t playlist -> id t <> trackId) ->
  removeTrack trackId playlist = playlist.
Proof.
  intros H. unfold removeTrack. apply forallb_filter_id.
  apply forallb_forall. intros t Ht.
  apply negb_true_iff, String.eqb_neq. now apply H.
Qed.

Lemma removeTrack_swap (trackId other : string) (playlist : list AudioTrack) :
  removeTrack trackId (removeTrack other playlist)
  = removeTrack other (removeTrack trackId playlist).
Proof.
  unfold removeTrack.
  induction playlist as [| t playlist IH]; [reflexivity |].
  cbn [filter].
  destruct (String.eqb (id t) other) eqn:Ho;
    destruct (String.eqb (id t) trackId) eqn:Hi;
    cbn [negb filter]; rewrite ?Ho, ?Hi; cbn [negb]; now rewrite IH.
Qed.

(** X1. [removeTrack] drops every track that carries the given id, also
    when several do, and keeps the others in their order; it changes
    nothing when no track carries the id, so removing twice is removing
    once, and removals can be done in any order. *)
Theorem removeTrack_removes (trackId : string) (playlist : list AudioTrack) :
  (forall t, In t (removeTrack trackId playlist)
             <-> In t playlist /\ id t <> trackId)
  /\ ((forall t, In t playlist -> id t <> trackId) ->
      removeTrack trackId playlist = playlist)
  /\ removeTrack trackId (removeTrack trackId playlist)
     = removeTrack trackId playlist
  /\ (forall other,
        removeTrack trackId (removeTrack other playlist)
        = removeTrack other (removeTrack trackId playlist))
  /\ (forall before after,
        playlist = before ++ after ->
        removeTrack trackId playlist
        = removeTrack trackId before ++ removeTrack trackId after).
Proof.
  assert (forall t, In t (removeTrack trackId playlist)
                    <-> In t playlist /\ id t <> trackId) as Hin.
  { intros t. unfold removeTrack. rewrite filter_In, negb_true_iff.
    now rewrite String.eqb_neq. }
  split; [exact Hin |]. split; [apply removeTrack_absent |].
  split; [| split].
  - apply removeTrack_absent. intros t Ht. now apply Hin in Ht.
  - intros other. apply removeTrack_swap.
  - intros before after ->. apply removeTrack_app.
Qed.





Section MoveTrackAgain.
Context {A : Type}.
Implicit Types (l playlist : list A) (n : nat).

Lemma swap_adjacent_involutive l n :
  swap_adjacent (swap_adjacent l n) n = l.
Proof.
  revert n; induction l as [| x l IH]; intros [| n]; cbn [swap_adjacent];
    try reflexivity.
  - destruct l as [| y r]; reflexivity.
  - now rewrite IH.
Qed.

(** [moveTrack] on a playlist and an index of it, by the reference
    definition. *)
Lemma moveTrack_of_list playlist (index : Z) (dir : direction) :
  0 <= index < Z.of_nat (List.length playlist) ->
  moveTrack (of_list playlist) index dir = of_list (moved playlist index dir).
Proof.
  intros Hrange.
  unfold moveTrack, moved, js_length, of_list.
  rewrite length_map. fold (of_list playlist).
  destruct dir; cbn [direction_eqb andb orb].
  - destruct (Z.eqb_spec index 0) as [-> | Hne]; [reflexivity |].
    cbn [orb].
    assert (exists n, index = Z.of_nat (S n)) as [n ->]
      by (exists (Z.to_nat (index - 1)); lia).
    replace (Z.of_nat (S n) - 1) with (Z.of_nat n) by lia.
    rewrite !js_get_nat, !js_set_nat, Nat2Z.id.
    apply exchange_up. lia.
  - destruct (Z.eqb_spec index (Z.of_nat (List.length playlist) - 1))
      as [-> | Hne]; [reflexivity |].
    assert (exists n, index = Z.of_nat n) as [n ->]
      by (exists (Z.to_nat index); lia).
    replace (Z.of_nat n + 1) with (Z.of_nat (S n)) by lia.
    rewrite !js_get_nat, !js_set_nat, Nat2Z.id.
    apply exchange_down. lia.
Qed.

(** X3. Moving a track up and then moving it down from where it landed
    gives the playlist back, and so does moving it down and then up. *)
Theorem moveTrack_round_trip playlist (index : Z) :
  (0 < index < Z.of_nat (List.length playlist) ->
   moveTrack (moveTrack (of_list playlist) index up) (index - 1) down
   = of_list playlist)
  /\ (0 <= index < Z.of_nat (List.length playlist) - 1 ->
      moveTrack (moveTrack (of_list playlist) index down) (index + 1) up
      = of_list playlist).
Proof.
  split; intros Hrange.
  - rewrite (moveTrack_of_list playlist index up) by lia.
    unfold moved at 1. destruct (Z.eqb_spec index 0) as [| _]; [lia |].
    rewrite moveTrack_of_list by (rewrite swap_adjacent_length; lia).
    unfold moved. rewrite swap_adjacent_length.
    destruct (Z.eqb_spec (index - 1) (Z.of_nat (List.length playlist) - 1));
      [lia |].
    now rewrite swap_adjacent_involutive.
  - rewrite (moveTrack_of_list playlist index down) by lia.
    unfold moved at 1.
    destruct (Z.eqb_spec index (Z.of_nat (List.length playlist) - 1));
      [lia |].
    rewrite moveTrack_of_list by (rewrite swap_adjacent_length; lia).
    unfold moved. destruct (Z.eqb_spec (index + 1) 0); [lia |].
    replace (index + 1 - 1) with index by lia.
    now rewrite swap_adjacent_involutive.
Qed.
End MoveTrackAgain.



(** ** The name of the output file *)

Lemma underscore_replaced : is_alphanumeric underscore = false.
Proof. reflexivity. Qed.

(** X5. The suggested file name has as many code units before [.mp4] as
    the name typed in; each is an ASCII letter or digit or an underscore;
    letters and digits stay where they are, so a name made of them is
    kept as it is and sanitizing twice changes nothing more. *)
Theorem suggestedName_clean (renderFilename : list nat) :
  suggestedName renderFilename = sanitize renderFilename ++ mp4_suffix
  /\ List.length (sanitize renderFilename) = List.length renderFilename
  /\ Forall (fun c => is_alphanumeric c = true \/ c = underscore)
            (sanitize renderFilename)
  /\ (forall i c,
        nth_error renderFilename i = Some c ->
        nth_error (sanitize renderFilename) i
        = Some (if is_alphanumeric c then c else underscore))
  /\ (Forall (fun c => is_alphanumeric c = true) renderFilename ->
      sanitize renderFilename = renderFilename)
  /\ sanitize (sanitize renderFilename) = sanitize renderFilename.
Proof.
  split; [reflexivity |]. split; [apply length_map |]. split; [| split].
  - unfold sanitize. apply Forall_forall. intros c Hc.
    apply in_map_iff in Hc. destruct Hc as (d & <- & _).
    destruct (is_alphanumeric d) eqn:Hd; auto.
  - intros i c Hi. unfold sanitize.
    now rewrite nth_error_map, Hi.
  - split.
    + intros Hclean. unfold sanitize.
      induction Hclean as [| c l Hc _ IH]; [reflexivity |].
      cbn [map]. now rewrite Hc, IH.
    + unfold sanitize. rewrite map_map. apply map_ext. intros c.
      destruct (is_alphanumeric c) eqn:Hc; [now rewrite Hc |].
      now rewrite underscore_replaced.
Qed.

Example suggestedName_default :
  (* "My Video!" *)
  suggestedName [77; 121; 32; 86; 105; 100; 101; 111; 33]%nat
  (* "My_Video_.mp4" *)
  = [77; 121; 95; 86; 105; 100; 101; 111; 95; 46; 109; 112; 52]%nat.
Proof. reflexivity. Qed.

(** ** Playback through the playlist *)

Lemma handleTrackEnd_advances (length loops : Z) (rendering : bool) (n : Z) :
  1 <= length -> 0 <= n -> n + 1 < length * loops ->
  handleTrackEnd length loops rendering (mkPlayer (n mod length) (n / length) true)
  = (mkPlayer ((n + 1) mod length) ((n + 1) / length) true, false).
Proof.
  intros Hlen Hn Hlt.
  pose proof (Z.div_mod n length ltac:(lia)) as Hdm.
  pose proof (Z.mod_pos_bound n length ltac:(lia)) as Hr.
  unfold handleTrackEnd. cbn [currentTrackIndex currentLoopIteration playing].
  destruct (Z.ltb_spec (n mod length) (length - 1)) as [Hin | Hlast].
  - assert ((n + 1) mod length = n mod length + 1) as ->
      by (symmetry; apply (Z.mod_unique_pos _ _ (n / length)); lia).
    assert ((n + 1) / length = n / length) as ->
      by (symmetry; apply (Z.div_unique_pos _ _ _ (n mod length + 1)); lia).
    reflexivity.
  - assert ((n + 1) mod length = 0) as ->
      by (symmetry; apply (Z.mod_unique_pos _ _ (n / length + 1)); lia).
    assert ((n + 1) / length = n / length + 1) as ->
      by (symmetry; apply (Z.div_unique_pos _ _ _ 0); lia).
    destruct (Z.ltb_spec (n / length) (loops - 1)) as [_ | Hloop];
      [reflexivity |].
    exfalso. nia.
Qed.

Lemma handleTrackEnd_stops (length loops : Z) (rendering : bool) (n : Z) :
  1 <= length -> 0 <= n -> n + 1 = length * loops ->
  handleTrackEnd length loops rendering (mkPlayer (n mod length) (n / length) true)
  = (mkPlayer (length - 1) (loops - 1) false, rendering).
Proof.
  intros Hlen Hn Heq.
  assert (n / length = loops - 1) as Hq
    by (symmetry; apply (Z.div_unique_pos _ _ _ (length - 1)); lia).
  assert (n mod length = length - 1) as Hr
    by (symmetry; apply (Z.mod_unique_pos _ _ (loops - 1)); lia).
  unfold handleTrackEnd. cbn [currentTrackIndex currentLoopIteration playing].
  rewrite Hq, Hr.
  destruct (Z.ltb_spec (length - 1) (length - 1)); [lia |].
  destruct (Z.ltb_spec (loops - 1) (loops - 1)); [lia |].
  reflexivity.
Qed.

(** X6. Playback goes through the playlist [loopCount] times: after [n]
    tracks have ended, with [n] less than the number of tracks times the
    number of loops, the player is at track [n mod length] of loop
    [n / length] and still playing; the track end that completes the last
    loop stops playback, and stops the recorder if a render is under
    way. *)
Theorem playlist_played_loops_times (length loops : Z) (rendering : bool)
  (n : nat) :
  1 <= length -> 1 <= loops -> Z.of_nat n < length * loops ->
  let p := after_tracks length loops rendering n (mkPlayer 0 0 true) in
  p = mkPlayer (Z.of_nat n mod length) (Z.of_nat n / length) true
  /\ 0 <= currentTrackIndex p < length
  /\ 0 <= currentLoopIteration p < loops
  /\ (Z.of_nat n + 1 < length * loops ->
      snd (handleTrackEnd length loops rendering p) = false)
  /\ (Z.of_nat n + 1 = length * loops ->
      handleTrackEnd length loops rendering p
      = (mkPlayer (length - 1) (loops - 1) false, rendering)).
Proof.
  intros Hlen Hloops Hn p.
  assert (p = mkPlayer (Z.of_nat n mod length) (Z.of_nat n / length) true)
    as Hp.
  { unfold p. clear p. induction n as [| n IH]; [now rewrite Zmod_0_l |].
    cbn [after_tracks]. rewrite IH by lia.
    rewrite (handleTrackEnd_advances length loops rendering (Z.of_nat n))
      by lia.
    cbn [fst]. now replace (Z.of_nat (S n)) with (Z.of_nat n + 1) by lia. }
  split; [exact Hp |]. rewrite Hp.
  cbn [currentTrackIndex currentLoopIteration].
  pose proof (Z.mod_pos_bound (Z.of_nat n) length ltac:(lia)) as Hr.
  pose proof (Z.div_mod (Z.of_nat n) length ltac:(lia)) as Hdm.
  split; [exact Hr |]. split; [split; [apply Z.div_pos; lia | nia] |].
  split.
  - intros H. now rewrite handleTrackEnd_advances by lia.
  - intros H. now apply handleTrackEnd_stops; lia.
Qed.

Lemma playlist_played_loops_times_witness :
  after_tracks 2 2 true 3 (mkPlayer 0 0 true) = mkPlayer 1 1 true
  /\ handleTrackEnd 2 2 true (after_tracks 2 2 true 3 (mkPlayer 0 0 true))
     = (mkPlayer 1 1 false, true).
Proof.
  destruct (playlist_played_loops_times 2 2 true 3) as (H & _ & _ & _ & H');
    [lia | lia | simpl; lia |].
  split; [exact H | apply H'; reflexivity].
Defined.

(** ** The progress shown while recording *)






(** ** The offline run as a whole *)

Section OfflineRunAgain.
Import Offline.


(** X9. A probe that throws: the exception of the HEVC probe is taken as
    "not supported" and the AVC High configuration is tried, but the
    exception of the AVC High probe ends the render: it is reported, and
    no writable stream, muxer or encoder is set up. *)
Theorem probe_failure_aborts :
  (forall rt hevc_msg,
      isConfigSupported rt hevc_main = ProbeThrows hevc_msg ->
      isConfigSupported rt avc_high = Supported ->
      negotiate rt
      = ([IsConfigSupported hevc_main; ConsoleWarn;
          IsConfigSupported avc_high],
         Normal ("avc1"%string, avc_high)))
  /\ (forall rt playlist enc preset used msg,
        hasShowSaveFilePicker rt = true ->
        pickerGrants rt = true ->
        decodes rt playlist ->
        isConfigSupported rt hevc_main <> Supported ->
        isConfigSupported rt avc_high = ProbeThrows msg ->
        negotiate rt
        = ([IsConfigSupported hevc_main; ConsoleWarn;
            IsConfigSupported avc_high],
           Throw msg)
        /\ startOfflineRendering rt playlist enc preset used
           = (setup_events rt playlist enc
              ++ [IsConfigSupported hevc_main; ConsoleWarn;
                  IsConfigSupported avc_high;
                  ConsoleError msg; Alert (RenderError msg);
                  SetIsRendering false],
              Normal tt)).
Proof.
  split.
  - intros rt hevc_msg Hhevc Havc. unfold negotiate.
    rewrite Hhevc. cbn. now rewrite Havc.
  - intros rt playlist enc preset used msg Hpicker Hgrant Hdec Hhevc Havc.
    assert (negotiate rt
            = ([IsConfigSupported hevc_main; ConsoleWarn;
                IsConfigSupported avc_high], Throw msg)) as Hneg.
    { unfold negotiate.
      destruct (isConfigSupported rt hevc_main); [congruence | |];
        cbn; now rewrite Havc. }
    split; [exact Hneg |].
    unfold startOfflineRendering, render_body.
    rewrite Hpicker, Hgrant. cbn [negb].
    rewrite (decode_tracks_ok rt playlist Hdec), Hneg.
    cbn [bind emit emit_all ret fst snd try_catch try_finally app].
    unfold setup_events, opening_events. cbn [fst snd]. f_equal.
    repeat (rewrite <- ?app_assoc; cbn [app]). reflexivity.
Qed.

Lemma probe_failure_aborts_witness :
  negotiate (sample_runtime
               (fun c => if String.eqb c hevc_main
                         then ProbeThrows "TypeError" else Supported)
               (fun _ => true))
  = ([IsConfigSupported hevc_main; ConsoleWarn; IsConfigSupported avc_high],
     Normal ("avc1"%string, avc_high)).
Proof.
  apply (proj1 probe_failure_aborts
           (sample_runtime
              (fun c => if String.eqb c hevc_main
                        then ProbeThrows "TypeError" else Supported)
              (fun _ => true))
           "TypeError"%string); reflexivity.
Defined.
End OfflineRunAgain.

Section OfflineRunPhases.
Import Offline.



Lemma decoded_tracks_app a b :
  decoded_tracks (a ++ b) = decoded_tracks a ++ decoded_tracks b.
Proof.
  induction a as [| e a IH]; [reflexivity |].
  destruct e; cbn [app decoded_tracks]; now rewrite ?IH.
Qed.

Lemma decoded_tracks_none l :
  (forall t, ~ In (DecodeAudioData t) l) -> decoded_tracks l = [].
Proof.
  induction l as [| e l IH]; intros H; [reflexivity |].
  assert (decoded_tracks l = []) as Hl
    by (apply IH; intros t Hin; apply (H t); now right).
  destruct e; cbn [decoded_tracks]; trivial.
  now destruct (H track (or_introl eq_refl)).
Qed.


(** The run equation again, cut where the extractions need it. *)
Lemma run_equation_cut rt playlist enc preset used :
  render_starts rt playlist ->
  exists neg codec,
    negotiate rt = (neg, Normal codec) /\ negotiation_events neg
    /\ trace (startOfflineRendering rt playlist enc preset used)
       = opening_events
         ++ map (fun t => DecodeAudioData (id t)) playlist
         ++ ([CloseAudioContext;
              NewOfflineAudioContext 2 (totalDurationSamples playlist enc)
                                     sampleRate]
             ++ build_audio_graph (decoded rt playlist)
                  (Z.to_nat (loopCount enc))
             ++ neg ++ encoder_events codec enc
             ++ schedule_suspends (fps preset)
                  (Z.to_nat (totalFrames (totalDuration playlist enc)
                                         (fps preset)))
             ++ [StartRendering])
         ++ run_callbacks rt (fps preset)
              (totalFrames (totalDuration playlist enc) (fps preset))
         ++ audio_events rt playlist enc
         ++ finale_events codec used.
Proof.
  intros Hstart.
  destruct (run_equation rt playlist enc preset used Hstart)
    as (neg & codec & Hn & Hneg & ->).
  exists neg, codec. split; [exact Hn |]. split; [exact Hneg |].
  cbn [trace fst]. unfold setup_events, loop_events.
  now rewrite <- !app_assoc.
Qed.




End OfflineRunPhases.

Section OfflineRunMore.
Import Offline.





End OfflineRunMore.

(** ** The audio pass *)

Section AudioPass.
Import Offline.

Lemma encode_audio_sum (totalSamples : Z) (fuel : nat) : forall offset,
  totalSamples - offset <= Z.of_nat fuel ->
  frames_encoded (audio_chunks (encode_audio fuel offset totalSamples))
  = Z.max 0 (totalSamples - offset).
Proof.
  induction fuel as [| fuel IH]; intros offset Hfuel; cbn [encode_audio].
  - cbn. lia.
  - destruct (Z.ltb_spec offset totalSamples) as [Hlt | Hge]; [| cbn; lia].
    cbn [audio_chunks frames_encoded fold_right snd].
    fold (frames_encoded
            (audio_chunks
               (encode_audio fuel (offset + chunkSamples) totalSamples))).
    rewrite IH by (unfold chunkSamples, sampleRate; lia).
    unfold chunkSamples, sampleRate. lia.
Qed.

Lemma encode_audio_nth (totalSamples : Z) (fuel : nat) :
  forall offset (k : nat) (c : Q * Z),
  nth_error (audio_chunks (encode_audio fuel offset totalSamples)) k = Some c ->
  offset + chunkSamples * Z.of_nat k < totalSamples
  /\ fst c = (inject_Z (offset + chunkSamples * Z.of_nat k)
              / inject_Z sampleRate * 1000000)%Q
  /\ snd c = Z.min chunkSamples
               (totalSamples - (offset + chunkSamples * Z.of_nat k)).
Proof.
  induction fuel as [| fuel IH]; intros offset k c; cbn [encode_audio].
  - now destruct k.
  - destruct (Z.ltb_spec offset totalSamples) as [Hlt | Hge];
      [| now destruct k].
    cbn [audio_chunks]. destruct k as [| k]; cbn [nth_error].
    + intros H. injection H as <-. cbn [fst snd].
      rewrite Z.mul_0_r, Z.add_0_r. auto.
    + intros H. apply IH in H.
      replace (offset + chunkSamples * Z.of_nat (S k))
        with (offset + chunkSamples + chunkSamples * Z.of_nat k) by lia.
      exact H.
Qed.

(** X13. The audio pass cuts a buffer of [totalSamples] frames into
    chunks that cover it exactly: the sizes add up to [totalSamples],
    every chunk has at least one frame and at most one second of them,
    chunk [k] starts at second [k] (its timestamp, in microseconds) and
    only the last chunk can be shorter than a second. *)
Theorem audio_chunks_cover_buffer (totalSamples : Z) :
  0 <= totalSamples ->
  let chunks :=
    audio_chunks (encode_audio (Z.to_nat totalSamples) 0 totalSamples) in
  frames_encoded chunks = totalSamples
  /\ (forall k c,
        nth_error chunks k = Some c ->
        (fst c == inject_Z (Z.of_nat k) * 1000000)%Q
        /\ snd c = Z.min 48000 (totalSamples - 48000 * Z.of_nat k)
        /\ 0 < snd c <= 48000
        /\ (snd c < 48000 -> nth_error chunks (S k) = None)).
Proof.
  intros Htotal chunks. split.
  - unfold chunks. rewrite encode_audio_sum by lia. lia.
  - intros k c Hk.
    pose proof (encode_audio_nth _ _ _ _ _ Hk) as (Hlt & Hts & Hsize).
    unfold chunkSamples, sampleRate in Hlt, Hts, Hsize.
    rewrite Z.mul_1_r, Z.add_0_l in *.
    split; [| split; [exact Hsize | split; [lia |]]].
    + rewrite Hts, inject_Z_mult. field.
    + intros Hshort.
      destruct (nth_error chunks (S k)) as [c' |] eqn:Hnext; [| reflexivity].
      apply encode_audio_nth in Hnext. destruct Hnext as (Hlt' & _).
      unfold chunkSamples, sampleRate in Hlt'. lia.
Qed.

Lemma audio_chunks_cover_buffer_witness :
  frames_encoded (audio_chunks (encode_audio (Z.to_nat 100000) 0 100000))
  = 100000.
Proof. apply (audio_chunks_cover_buffer 100000). lia. Defined.

Example audio_chunks_of_100000 :
  map snd (audio_chunks (encode_audio (Z.to_nat 100000) 0 100000))
  = [48000; 48000; 4000].
Proof. vm_compute. reflexivity. Qed.




(** X15. In a run that goes through, every track of the playlist is
    handed to the decoder exactly once, in the order of the playlist, and
    all of them are before the audio context is closed and anything is
    scheduled. *)
Theorem tracks_decoded_once_in_order rt playlist enc preset used :
  render_starts rt playlist ->
  decoded_tracks (trace (startOfflineRendering rt playlist enc preset used))
  = map id playlist
  /\ exists after,
       trace (startOfflineRendering rt playlist enc preset used)
       = opening_events
         ++ map (fun t => DecodeAudioData (id t)) playlist
         ++ CloseAudioContext :: after
       /\ decoded_tracks after = [].
Proof.
  intros Hstart.
  destruct (run_equation_cut rt playlist enc preset used Hstart)
    as (neg & codec & _ & Hneg & Hrun).
  assert (forall l : list AudioTrack,
            decoded_tracks (map (fun t => DecodeAudioData (id t)) l)
            = map id l) as Hmap
    by (induction l as [| t l IH]; [reflexivity | cbn; now rewrite IH]).
  match type of Hrun with
  | _ = ?o ++ ?d ++ ?p ++ ?c ++ ?a ++ ?f =>
      assert (decoded_tracks (p ++ c ++ a ++ f) = []) as Hafter;
      [| split;
         [rewrite Hrun, (decoded_tracks_app o), (decoded_tracks_app d),
            Hafter, Hmap; cbn [opening_events decoded_tracks app];
          now rewrite app_nil_r
         | exists (tl (p ++ c ++ a ++ f)); split;
           [rewrite Hrun; reflexivity | exact Hafter]]]
  end.
  apply decoded_tracks_none. intros t H.
  rewrite !in_app_iff in H.
  destruct H as [[H | [H | [H | [H | [H | H]]]]] | [H | [H | H]]].
  - wrong_phase.
  - apply build_audio_graph_shape in H. wrong_phase.
  - apply Hneg in H. wrong_phase.
  - wrong_phase.
  - unfold schedule_suspends in H. apply in_map_iff in H. wrong_phase.
  - wrong_phase.
  - apply run_callbacks_shape in H. wrong_phase.
  - unfold audio_events in H. destruct H as [H | H]; [discriminate |].
    apply encode_audio_shape in H. wrong_phase.
  - unfold finale_events in H. wrong_phase.
Qed.
End AudioPass.

Section CompositorAgain.
Import Offline.

Lemma tracks_decoded_once_in_order_witness :
  decoded_tracks
    (trace (startOfflineRendering
              (sample_runtime (fun _ => Supported) (fun _ => true))
              scenario_playlist scenario_settings balanced ""))
  = map id scenario_playlist.
Proof.
  apply (tracks_decoded_once_in_order
           (sample_runtime (fun _ => Supported) (fun _ => true))
           scenario_playlist scenario_settings balanced "").
  now apply sample_runtime_starts.
Defined.

Lemma map_nth_seq (l : list Z) (f : Z -> Z) :
  map (fun k => f (nth k l 0)) (seq 0 (List.length l)) = map f l.
Proof.
  induction l as [| x l IH]; [reflexivity |].
  cbn [List.length seq map nth]. f_equal.
  rewrite <- seq_shift, map_map. exact IH.
Qed.

(** X16. Whatever the decoded buffers and the number of loops, the
    buffer the offline context renders holds, frame by frame, twice the
    timeline (the buffers one after the other, the whole repeated): each
    buffer is started once on the destination and once on the master
    gain, which is connected to the destination; past the end of the
    timeline it holds silence. *)
Theorem rendered_buffer_is_twice_the_timeline (trackBuffers : list (list Z))
  (loops : nat) :
  renderedBuffer (build_audio_graph trackBuffers loops)
    (Z.of_nat (List.length (timeline trackBuffers loops)))
  = map (Z.mul 2) (timeline trackBuffers loops)
  /\ (forall length k,
        (k < Z.to_nat length)%nat ->
        nth k (renderedBuffer (build_audio_graph trackBuffers loops) length) 0
        = 2 * nth k (timeline trackBuffers loops) 0)
  /\ (forall length k,
        (List.length (timeline trackBuffers loops) <= k)%nat ->
        nth k (renderedBuffer (build_audio_graph trackBuffers loops) length) 0
        = 0).
Proof.
  split; [| split].
  - rewrite rendered_is_doubled, Nat2Z.id.
    apply (map_nth_seq (timeline trackBuffers loops) (Z.mul 2)).
  - intros length k Hk. rewrite rendered_is_doubled.
    rewrite (nth_indep _ 0 (2 * nth (Z.to_nat length) (timeline trackBuffers loops) 0))
      by (now rewrite length_map, length_seq).
    rewrite (map_nth (fun k => 2 * nth k (timeline trackBuffers loops) 0)).
    now rewrite seq_nth.
  - intros length k Hk. rewrite rendered_is_doubled.
    destruct (Nat.lt_ge_cases k (Z.to_nat length)) as [Hlt | Hge].
    + rewrite (nth_indep _ 0 (2 * nth (Z.to_nat length) (timeline trackBuffers loops) 0))
        by (now rewrite length_map, length_seq).
      rewrite (map_nth (fun k => 2 * nth k (timeline trackBuffers loops) 0)).
      rewrite seq_nth by exact Hlt.
      now rewrite nth_overflow.
    + apply nth_overflow. now rewrite length_map, length_seq.
Qed.
End CompositorAgain.

(** ** The recorder pipeline, further *)

Section RecorderAgain.
Import Recorder.



(** Every action of a list is the picker call, a console error or an
    alert. *)
Ltac informing :=
  repeat (apply Forall_cons;
          [first [ now left | right; left; eexists; reflexivity
                 | right; right; eexists; reflexivity ] |]);
  apply Forall_nil.

(** X18. When the refs are not set, the picker is missing, or the picker
    does not grant a file, [startRendering] starts nothing: the recorder,
    the sink, the write queue, the gain, the flags and the progress are
    as they were, and the only actions are the picker call, a console
    error and an alert. *)
Theorem render_not_started (rt : recorder_runtime) (s : studio) :
  refsReady rt = false \/ hasPicker rt = false
  \/ pickerOutcome rt <> PickerGranted ->
  let s' := startRendering rt s in
  mediaRecorder s' = mediaRecorder s /\ onstop s' = onstop s
  /\ stopPending s' = stopPending s
  /\ writableStream s' = writableStream s
  /\ pendingWrites s' = pendingWrites s /\ fileData s' = fileData s
  /\ gain s' = gain s /\ isRendering s' = isRendering s
  /\ isPlaying s' = isPlaying s /\ renderProgress s' = renderProgress s
  /\ exists more,
       log s' = log s ++ more
       /\ Forall (fun e => e = ShowSaveFilePicker
                           \/ (exists m, e = ConsoleError m)
                           \/ exists m, e = Alert m) more.
Proof.
  intros H s'. unfold s', startRendering.
  destruct s as [mr os sp w q f g ir ip rp lg].
  destruct (refsReady rt); cbn [negb].
  2:{ repeat (split; [reflexivity |]). exists [].
      split; [now rewrite app_nil_r | constructor]. }
  destruct (hasPicker rt); cbn [negb].
  2:{ run_actions. repeat (split; [reflexivity |]).
      exists [Alert UnsupportedBrowser].
      split; [reflexivity | informing]. }
  destruct (pickerOutcome rt).
  - exfalso. destruct H as [H | [H | H]]; congruence.
  - run_actions. repeat (split; [reflexivity |]).
    exists [ShowSaveFilePicker].
    split; [reflexivity | informing].
  - run_actions. repeat (split; [reflexivity |]).
    exists [ShowSaveFilePicker; ConsoleError "File System Access Error";
            Alert SaveLocationError].
    split; [now rewrite <- !app_assoc | informing].
Qed.

Lemma render_not_started_witness :
  writableStream
    (startRendering
       (mkRecorderRuntime true true PickerDismissed (fun _ => true) true) idle)
  = writableStream idle.
Proof.
  apply (render_not_started
           (mkRecorderRuntime true true PickerDismissed (fun _ => true) true)
           idle).
  right. right. discriminate.
Defined.


End RecorderAgain.

Section RecordingRuns.
Import Recorder.





End RecordingRuns.

(** ** The write queue, further *)

Section WriteQueueAgain.
Import WriteQueue.


(** X21. At any time at most one write is in flight. *)
Theorem one_write_in_flight (q : queue) (a b : nat) :
  reachable q ->
  status_of q a = Some writing -> status_of q b = Some writing -> a = b.
Proof.
  intros Hreach Ha Hb.
  pose proof (reachable_chained q Hreach) as Hq.
  destruct (Nat.lt_trichotomy a b) as [H | [H | H]]; [| exact H |];
    exfalso.
  - assert (status_of q a = Some done) as Hd.
    { apply (chain_order q Hq a b H). exists writing.
      split; [exact Hb | discriminate]. }
    congruence.
  - assert (status_of q b = Some done) as Hd.
    { apply (chain_order q Hq b a H). exists writing.
      split; [exact Ha | discriminate]. }
    congruence.
Qed.

Lemma one_write_in_flight_witness : 1%nat = 1%nat.
Proof.
  apply (one_write_in_flight two_writes 1 1).
  - apply (reach_step
             (step_or_stay (settle 0) (step_or_stay (begin 0) two_chunks)));
      [| apply (step_begin _ _ 1); reflexivity].
    apply (reach_step (step_or_stay (begin 0) two_chunks));
      [| apply (step_settle _ _ 0); reflexivity].
    apply (reach_step two_chunks);
      [| apply (step_begin two_chunks _ 0); reflexivity].
    apply (reach_step (enqueue 7 init)); [| apply (step_enqueue _ 8)].
    apply (reach_step init); [| apply (step_enqueue _ 7)].
    apply reach_init.
  - reflexivity.
  - reflexivity.
Defined.

(** Up to any point of the chain, either some callback can start or
    some write can settle, or everything is written. *)
Lemma chain_moves (q : queue) : chained q -> forall n,
  (n <= nextTask q)%nat ->
  (exists t q', begin t q = Some q' \/ settle t q = Some q')
  \/ forall a, (a < n)%nat -> status_of q a = Some done.
Proof.
  intros Hq. induction n as [| n IH]; intros Hn.
  - right. intros a Ha. lia.
  - destruct IH as [IH | IH]; [lia | now left |].
    destruct (chain_task q Hq n) as (b & [| |] & Ht); [lia | | |].
    + left. exists n. unfold begin. rewrite Ht.
      assert (promise q n = Some settled) as ->.
      { destruct n as [| m]; [apply (chain_first q Hq) |].
        apply (chain_promise q Hq m); [lia |]. apply IH. lia. }
      eexists. left. reflexivity.
    + left. exists n. unfold settle. rewrite Ht.
      eexists. right. reflexivity.
    + right. intros a Ha. destruct (Nat.eq_dec a n) as [-> | Hne].
      * unfold status_of. now rewrite Ht.
      * apply IH. lia.
Qed.

(** X22. The queue never stalls: as long as some chunk is not written,
    a callback can start or the write in flight can settle.  A write
    that fails settles like one that succeeds, so a failure does not
    block the chunks behind it. *)
Theorem write_queue_never_stalls (q : queue) (t : nat) (st : task_status) :
  reachable q -> status_of q t = Some st -> st <> done ->
  exists t' q', begin t' q = Some q' \/ settle t' q = Some q'.
Proof.
  intros Hreach Ht Hst.
  pose proof (reachable_chained q Hreach) as Hq.
  assert (t < nextTask q)%nat as Hlt.
  { destruct (Nat.lt_ge_cases t (nextTask q)) as [H | H]; [exact H |].
    unfold status_of in Ht. rewrite (chain_none q Hq t H) in Ht.
    discriminate. }
  destruct (chain_moves q Hq (nextTask q) (le_n _)) as [H | H];
    [exact H |].
  rewrite (H t Hlt) in Ht. congruence.
Qed.

Lemma write_queue_never_stalls_witness :
  exists t' q',
    begin t' two_chunks = Some q' \/ settle t' two_chunks = Some q'.
Proof.
  apply (write_queue_never_stalls two_chunks 1 waiting).
  - apply (reach_step (enqueue 7 init)); [| apply (step_enqueue _ 8)].
    apply (reach_step init); [| apply (step_enqueue _ 7)].
    apply reach_init.
  - reflexivity.
  - discriminate.
Defined.



End WriteQueueAgain.
